(** * Affected-book resolution of openstack-doc-test

    A shallow embedding of [find_affected_books] and of the helpers it
    calls ([is_book_master], [check_modified_affects_all],
    [ha_guide_touched], [get_modified_files]) from
    [os_doc_tools/doctest.py], together with the properties the design
    document states about them.

    The Python function walks a documentation tree, collects the books
    (directories holding a [pom.xml]), records which file is included by
    which, and then closes the list of files changed by the last commit
    under "is included by" to find the books that have to be rebuilt. *)

From stdpp Require Import base option list gmap strings.
From Stdlib Require Import String Ascii.

Open Scope string_scope.
Open Scope list_scope.

(** ** Python strings and [posixpath] *)

Module Py.

(** [s.startswith(p)] *)
Definition startswith (s p : string) : bool := String.prefix p s.

(** [s.endswith(p)] *)
Definition endswith (s p : string) : bool :=
  (String.length p <=? String.length s)%nat
  && String.eqb
       (String.substring (String.length s - String.length p) (String.length p) s) p.

(** [s.split(c)] for a one-character separator: never empty. *)
Fixpoint split (c : ascii) (s : string) : list string :=
  match s with
  | EmptyString => [""]
  | String a s' =>
      if Ascii.eqb a c then "" :: split c s'
      else match split c s' with
           | [] => [String a ""]
           | w :: ws => String a w :: ws
           end
  end.

(** [sep.join(l)] *)
Definition join_with (sep : string) (l : list string) : string :=
  String.concat sep l.

(** [x in l] for a list of strings. *)
Definition mem (x : string) (l : list string) : bool :=
  bool_decide (x ∈ l).

End Py.

Module PosixPath.

Definition sep : ascii := "/"%char.

(** [posixpath.isabs] *)
Definition isabs (p : string) : bool := Py.startswith p "/".

(** [posixpath.basename]: what follows the last slash. *)
Definition basename (p : string) : string := List.last (Py.split sep p) "".

(** [posixpath.join] on two arguments. *)
Definition join (a b : string) : string :=
  if Py.startswith b "/" then b
  else if String.eqb a "" || Py.endswith a "/" then a +:+ b
  else a +:+ "/" +:+ b.

(** The loop of [posixpath.normpath] over the components. *)
Fixpoint norm_comps (initial_slashes : nat) (comps new_comps : list string)
  : list string :=
  match comps with
  | [] => new_comps
  | comp :: rest =>
      if String.eqb comp "" || String.eqb comp "." then
        norm_comps initial_slashes rest new_comps
      else if negb (String.eqb comp "..")
              || ((initial_slashes =? 0)%nat && bool_decide (new_comps = []))
              || String.eqb (List.last new_comps "") ".." then
        norm_comps initial_slashes rest (new_comps ++ [comp])
      else
        norm_comps initial_slashes rest (removelast new_comps)
  end.

(** [posixpath.normpath] *)
Definition normpath (path : string) : string :=
  if String.eqb path "" then "."
  else
    let initial_slashes :=
      if Py.startswith path "/" then
        if Py.startswith path "//" && negb (Py.startswith path "///")
        then 2 else 1
      else 0 in
    let comps := norm_comps initial_slashes (Py.split sep path) [] in
    let path' := Py.join_with "/" comps in
    let path'' :=
      match initial_slashes with
      | 0 => path'
      | 1 => "/" +:+ path'
      | _ => "//" +:+ path'
      end in
    if String.eqb path'' "" then "." else path''.

(** [posixpath.abspath], with the working directory made explicit. *)
Definition abspath (cwd path : string) : string :=
  normpath (if isabs path then path else join cwd path).

End PosixPath.

(** ** The world the function runs in *)

(** Exceptions that leave [find_affected_books]. *)
Inductive exn :=
  | KeyError (key : string)      (* [book_bk[f]] with [f] not a key *)
  | AttributeError               (* [os.path.join(root, None)] *)
  | SystemExit (code : nat).     (* [sys.exit(1)] after a git failure *)

(** What [etree.parse(f_abs)] gives: a syntax error with its message, or a
    document, of which only the [fileref] attributes of the [imagedata]
    elements and the [href] attributes of the [xi:include] elements are
    read ([node.get] returns [None] when the attribute is absent). *)
Inductive parse_result :=
  | XMLSyntaxError (msg : string)
  | Document (imagedata_fileref xi_include_href : list (option string)).

(** A directory as [os.walk] sees it: its sub-directories by name, in
    listing order, and the names of its other entries. *)
#[local] Unset Elimination Schemes.
Inductive fs :=
  | Dir (subdirs : list (string * fs)) (files : list string).
#[local] Set Elimination Schemes.

Record world := {
  start_cwd : string;                           (* [os.getcwd()] at the call *)
  listing : fs;                                 (* the tree at [rootdir] *)
  etree_parse : string -> parse_result;
  (* [git diff --name-only HEAD~1 HEAD], split at white space; [inl e]
     when git fails with [e] *)
  git_diff_name_only : string + list string;
  (* [git diff --name-only --relative HEAD~1 HEAD --diff-filter=ACMRT],
     run in [rootdir] *)
  git_diff_relative_ACMRT : string + list string;
  only_book : list string                       (* [cfg.CONF.only_book] *)
}.

(** The value returned: [books] is a list, [affected_books] a set. *)
Inductive py_books :=
  | BookList (l : list string)
  | BookSet (s : gset string).

Definition book_in (b : string) (r : py_books) : Prop :=
  match r with
  | BookList l => b ∈ l
  | BookSet s => b ∈ s
  end.

(** ** Program state and the monad of the embedding *)

(** The locals of [find_affected_books] that the tree walk updates, the
    process state it touches, and two ghost traces: [visited] (the
    directories [os.walk] has yielded) and [parsed] (the files given to
    [etree.parse]) are not program variables. *)
Record state := {
  cwd : string;
  stdout : list string;
  books : list string;
  book_root : string;
  affected_books : gset string;
  included_by : gmap string (gset string);
  book_bk : gmap string string;
  visited : list string;
  parsed : list string
}.

Definition set_cwd (v : string) (st : state) : state :=
  {| cwd := v; stdout := stdout st; books := books st; book_root := book_root st;
     affected_books := affected_books st; included_by := included_by st;
     book_bk := book_bk st; visited := visited st; parsed := parsed st |}.

Definition print (line : string) (st : state) : state :=
  {| cwd := cwd st; stdout := stdout st ++ [line]; books := books st;
     book_root := book_root st; affected_books := affected_books st;
     included_by := included_by st; book_bk := book_bk st;
     visited := visited st; parsed := parsed st |}.

(** [books.append(root); book_root = root] *)
Definition new_book (root : string) (st : state) : state :=
  {| cwd := cwd st; stdout := stdout st; books := books st ++ [root];
     book_root := root; affected_books := affected_books st;
     included_by := included_by st; book_bk := book_bk st;
     visited := visited st; parsed := parsed st |}.

Definition set_affected_books (v : gset string) (st : state) : state :=
  {| cwd := cwd st; stdout := stdout st; books := books st; book_root := book_root st;
     affected_books := v; included_by := included_by st;
     book_bk := book_bk st; visited := visited st; parsed := parsed st |}.

Definition set_included_by (v : gmap string (gset string)) (st : state) : state :=
  {| cwd := cwd st; stdout := stdout st; books := books st; book_root := book_root st;
     affected_books := affected_books st; included_by := v;
     book_bk := book_bk st; visited := visited st; parsed := parsed st |}.

Definition set_book_bk (v : gmap string string) (st : state) : state :=
  {| cwd := cwd st; stdout := stdout st; books := books st; book_root := book_root st;
     affected_books := affected_books st; included_by := included_by st;
     book_bk := v; visited := visited st; parsed := parsed st |}.

Definition note_visited (root : string) (st : state) : state :=
  {| cwd := cwd st; stdout := stdout st; books := books st; book_root := book_root st;
     affected_books := affected_books st; included_by := included_by st;
     book_bk := book_bk st; visited := visited st ++ [root]; parsed := parsed st |}.

Definition note_parsed (f_abs : string) (st : state) : state :=
  {| cwd := cwd st; stdout := stdout st; books := books st; book_root := book_root st;
     affected_books := affected_books st; included_by := included_by st;
     book_bk := book_bk st; visited := visited st; parsed := parsed st ++ [f_abs] |}.

(** How a computation ends: with a value, with a Python exception, or
    (for the model of the [while] loop only) with its budget of rounds
    used up. *)
Inductive res (A : Type) :=
  | Val (a : A)
  | Exc (e : exn)
  | OutOfFuel.
Arguments Val {A} a.
Arguments Exc {A} e.
Arguments OutOfFuel {A}.

Definition M (A : Type) : Type := state -> res A * state.

Definition ret {A} (a : A) : M A := fun st => (Val a, st).
Definition raise {A} (e : exn) : M A := fun st => (Exc e, st).
Definition bind {A B} (m : M A) (k : A -> M B) : M B :=
  fun st =>
    match m st with
    | (Val a, st') => k a st'
    | (Exc e, st') => (Exc e, st')
    | (OutOfFuel, st') => (OutOfFuel, st')
    end.
Definition gets {A} (f : state -> A) : M A := fun st => (Val (f st), st).
Definition modify (f : state -> state) : M unit := fun st => (Val tt, f st).

#[global] Instance M_ret : MRet M := @ret.
#[global] Instance M_bind : MBind M := fun A B k m => bind m k.

(** [for x in l: body(x)] *)
Fixpoint for_each {A} (l : list A) (body : A -> M unit) : M unit :=
  match l with
  | [] => ret tt
  | x :: rest => body x;; for_each rest body
  end.

(** [if c: body] *)
Definition when (c : bool) (body : M unit) : M unit :=
  if c then body else ret tt.

(** Truth value of a Python list. *)
Definition truthy {A} (l : list A) : bool :=
  match l with [] => false | _ => true end.

(** ** The helpers of [find_affected_books] *)

Definition is_book_master (filename : string) : bool :=
  ((Py.startswith filename "bk-" || Py.startswith filename "bk_"
    || Py.startswith filename "st-")
   && Py.endswith filename ".xml")
  || String.eqb filename "openstack-glossary.xml".

Definition special_files : list string := ["tools/test.py"; "doc/pom.xml"].

(** [dirs.index('target')] followed by [del dirs[ind]]: the first
    occurrence goes, and nothing happens when there is none. *)
Fixpoint del_first (x : string) (l : list string) : list string :=
  match l with
  | [] => []
  | y :: rest => if String.eqb y x then rest else y :: del_first x rest
  end.

(** How one pass through the body of the [os.walk] loop ends. *)
Inductive flow := Continue | Break.

Section FindAffectedBooks.

Variable w : world.
Variables (rootdir : string) (book_exceptions file_exceptions : list string).
Variables (verbose force : bool) (ignore_dirs : list string).

(** [os.chdir(rootdir)] *)
Definition chdir (d : string) : M unit :=
  modify (fun st => set_cwd (PosixPath.abspath (cwd st) d) st).

(** The [try: check_output(git_args) except: print; sys.exit(1)] that
    the three git helpers share. *)
Definition git (output : string + list string) : M (list string) :=
  match output with
  | inr modified_files => ret modified_files
  | inl e => modify (print ("git failed: " +:+ e));; raise (SystemExit 1)
  end.

Definition ha_guide_touched : M bool :=
  modified_files ← git (git_diff_name_only w);
  ret (foldl (fun ha_changed f =>
                if Py.startswith f "doc/high-availability-guide/"
                then true else ha_changed)
             false modified_files).

(** The [for] loop of [check_modified_affects_all], which returns at
    the first special file. *)
Fixpoint first_special (modified_files : list string) : M bool :=
  match modified_files with
  | [] => ret false
  | f :: rest =>
      if Py.mem f special_files then
        when verbose
          (modify (print ("File " +:+ f +:+ " modified, this affects all books.")));;
        ret true
      else first_special rest
  end.

Definition check_modified_affects_all : M bool :=
  chdir rootdir;;
  modified_files ← git (git_diff_name_only w);
  first_special modified_files.

(** [get_modified_files(rootdir, "--diff-filter=ACMRT")] *)
Definition get_modified_files : M (list string) :=
  chdir rootdir;;
  git (git_diff_relative_ACMRT w).

(** *** The tree walk *)

(** The three in-place updates of [dirs] at the top of the loop body. *)
Definition prune_dirs (dirs : list string) : list string :=
  let dirs := del_first "target" dirs in
  let dirs := List.filter (fun d => negb (Py.startswith d ".")) dirs in
  if truthy ignore_dirs
  then List.filter (fun d => negb (Py.mem d ignore_dirs)) dirs
  else dirs.

(** [included_by[href_abs].add(f_abs)], or a new singleton. *)
Definition add_edge (href_abs f_abs : string) (st : state) : state :=
  match included_by st !! href_abs with
  | Some includers =>
      set_included_by (<[href_abs := includers ∪ {[f_abs]}]> (included_by st)) st
  | None =>
      set_included_by (<[href_abs := {[f_abs]}]> (included_by st)) st
  end.

(** The body of the two loops over the nodes of a document. *)
Definition scan_node (root f_abs : string) (href : option string) : M unit :=
  match href with
  | None => raise AttributeError
  | Some href =>
      d ← gets cwd;
      let href_abs := PosixPath.abspath d (PosixPath.join root href) in
      modify (add_edge href_abs f_abs)
  end.

(** The body of [for f in files]. *)
Definition scan_file (root f : string) : M unit :=
  let f_base := PosixPath.basename f in
  d ← gets cwd;
  let f_abs := PosixPath.abspath d (PosixPath.join root f) in
  when (is_book_master f_base)
    (modify (fun st => set_book_bk (<[f_abs := book_root st]> (book_bk st)) st));;
  when (Py.endswith f ".xml"
        && negb (String.eqb f "pom.xml")
        && negb (String.eqb f "ha-guide-docinfo.xml")
        && negb (Py.mem f file_exceptions))
    (modify (note_parsed f_abs);;
     match etree_parse w f_abs with
     | XMLSyntaxError e =>
         modify (print ("  Warning: file " +:+ f_abs +:+ " is invalid XML: " +:+ e))
     | Document imagedata xi_include =>
         for_each imagedata (scan_node root f_abs);;
         for_each xi_include (scan_node root f_abs)
     end).

(** The [elif "pom.xml" in files] branch: [root] is a book, unless
    [only_book] selects others. *)
Definition register_book (root : string) (files : list string) : M unit :=
  when (Py.mem "pom.xml" files)
    (when (negb (truthy (only_book w))
           || (truthy (only_book w)
               && Py.mem (PosixPath.basename root) (only_book w)))
       (modify (new_book root))).

(** The end of the loop body, from the check of the high-availability
    guide on. *)
Definition scan_directory (root : string) (files : list string) : M flow :=
  when (Py.endswith root "doc/high-availability-guide")
    (touched ← ha_guide_touched;
     when touched
       (modify (fun st =>
          set_affected_books (affected_books st ∪ {[book_root st]}) st)));;
  for_each files (scan_file root);;
  ret Continue.

(** The body of [for root, dirs, files in os.walk(rootdir)] after the
    pruning of [dirs]. *)
Definition loop_body (build_all_books : bool) (root : string) (files : list string)
  : M flow :=
  if Py.mem (PosixPath.basename root) book_exceptions then ret Break
  else if Py.endswith root "doc" || String.eqb root rootdir then ret Continue
  else
    register_book root files;;
    if build_all_books then ret Continue
    else scan_directory root files.

(** The loop body with its ghost step: [root] has been yielded. *)
Definition visit (build_all_books : bool) (root : string) (files : list string)
  : M flow :=
  modify (note_visited root);;
  loop_body build_all_books root files.

Section Entries.

(** The walk of one sub-directory, by its name. *)
Variable walk_sub : string -> fs -> M flow.

(** [for name in dirs: for x in walk(join(top, name)): yield x].  The
    names of a listing are distinct and the loop body only deletes
    from [dirs], so this visits the entries still named in [dirs],
    in listing order, until the consumer breaks. *)
Fixpoint walk_entries (dirs : list string) (entries : list (string * fs))
  : M flow :=
  match entries with
  | [] => ret Continue
  | (name, sub) :: rest =>
      if Py.mem name dirs then
        fl ← walk_sub name sub;
        match fl with
        | Break => ret Break
        | Continue => walk_entries dirs rest
        end
      else walk_entries dirs rest
  end.
End Entries.

(** [os.walk(top)], top down, driving the loop body [visit]: the body
    runs on [top] first, and the generator then goes through what the
    body has left in [dirs]. *)
Fixpoint walk (build_all_books : bool) (top : string) (t : fs) : M flow :=
  match t with
  | Dir entries files =>
      let dirs := prune_dirs (map fst entries) in
      fl ← visit build_all_books top files;
      match fl with
      | Break => ret Break
      | Continue =>
          walk_entries
            (fun name sub => walk build_all_books (PosixPath.join top name) sub)
            dirs entries
      end
  end.

End FindAffectedBooks.

(** ** The closure over [included_by] *)

(** The variables of step 3 of [find_affected_books], and one ghost
    trace: [dequeued] lists the files the inner [for f in
    new_files_to_check] loop has taken, in order. *)
Record closure := {
  new_files : list string;
  affected_files : gset string;
  c_affected_books : gset string;
  dequeued : list string
}.

Section Closure.

(** The two dictionaries the tree walk has built; the closure only
    reads them. *)
Variable G : gmap string (gset string).     (* [included_by] *)
Variable B : gmap string string.            (* [book_bk] *)

(** [if g not in affected_files: new_files.append(g); affected_files.add(g)] *)
Definition enqueue (c : closure) (g : string) : closure :=
  if decide (g ∈ affected_files c) then c
  else {| new_files := new_files c ++ [g];
          affected_files := affected_files c ∪ {[g]};
          c_affected_books := c_affected_books c;
          dequeued := dequeued c |}.

(** The ghost step: [f] is taken by [for f in new_files_to_check]. *)
Definition dequeue (f : string) (c : closure) : closure :=
  {| new_files := new_files c; affected_files := affected_files c;
     c_affected_books := c_affected_books c;
     dequeued := dequeued c ++ [f] |}.

(** [if book_modified not in affected_books:
       affected_books.add(book_modified)] *)
Definition add_book (book_modified : string) (c : closure) : closure :=
  if decide (book_modified ∈ c_affected_books c) then c
  else {| new_files := new_files c; affected_files := affected_files c;
          c_affected_books := c_affected_books c ∪ {[book_modified]};
          dequeued := dequeued c |}.

(** The body of [for f in new_files_to_check]; the set
    [included_by[f]] is run through in the order of [elements]. *)
Definition check_file (f : string) (c : closure) : res unit * closure :=
  let c := dequeue f c in
  if is_book_master (PosixPath.basename f) then
    match B !! f with
    | None => (Exc (KeyError f), c)
    | Some book_modified => (Val tt, add_book book_modified c)
    end
  else
    match G !! f with
    | None => (Val tt, c)
    | Some includers => (Val tt, foldl enqueue c (elements includers))
    end.

Fixpoint check_files (new_files_to_check : list string) (c : closure)
  : res unit * closure :=
  match new_files_to_check with
  | [] => (Val tt, c)
  | f :: rest =>
      match check_file f c with
      | (Val _, c') => check_files rest c'
      | r => r
      end
  end.

(** [new_files = []] at the top of a round. *)
Definition clear_new_files (c : closure) : closure :=
  {| new_files := []; affected_files := affected_files c;
     c_affected_books := c_affected_books c; dequeued := dequeued c |}.

(** [while len(new_files) > 0], every round costing one unit of
    [fuel]. *)
Fixpoint while_new_files (fuel : nat) (c : closure) : res unit * closure :=
  match new_files c with
  | [] => (Val tt, c)
  | new_files_to_check =>
      match fuel with
      | 0 => (OutOfFuel, c)
      | S fuel' =>
          match check_files new_files_to_check (clear_new_files c) with
          | (Val _, c') => while_new_files fuel' c'
          | r => r
          end
      end
  end.

(** Every file that can ever be appended to [new_files]. *)
Definition includers : gset string := ⋃ (map_to_list G).*2.

(** Rounds that are always enough (see [while_new_files_terminates]). *)
Definition closure_fuel : nat := S (size includers).

Definition start_closure (modified_files : list string) (affected : gset string)
  : closure :=
  {| new_files := modified_files;
     affected_files := list_to_set modified_files;
     c_affected_books := affected;
     dequeued := [] |}.

End Closure.

Section FindAffectedBooksMain.

Variable w : world.
Variables (rootdir : string) (book_exceptions file_exceptions : list string).
Variables (verbose force : bool) (ignore_dirs : list string).

(** [force or check_modified_affects_all(rootdir, verbose) or
    cfg.CONF.only_book], as a truth value. *)
Definition build_all_books_flag : M bool :=
  if force then ret true
  else
    special ← check_modified_affects_all w rootdir verbose;
    ret (special || truthy (only_book w)).

(** The first part of [find_affected_books], up to the end of the tree
    walk; it returns [build_all_books]. *)
Definition scan : M bool :=
  build_all_books ← build_all_books_flag;
  walk w rootdir book_exceptions file_exceptions ignore_dirs
       build_all_books rootdir (listing w);;
  ret build_all_books.

(** Steps 2 and 3: the modified files and the closure.  It returns the
    closure variables at the end of the loop. *)
Definition close_modified : M closure :=
  modified_files ← get_modified_files w rootdir;
  d ← gets cwd;
  let modified_files := map (PosixPath.abspath d) modified_files in
  included_by ← gets included_by;
  book_bk ← gets book_bk;
  affected_books ← gets affected_books;
  match while_new_files included_by book_bk (closure_fuel included_by)
          (start_closure modified_files affected_books) with
  | (Val _, c) => modify (set_affected_books (c_affected_books c));; ret c
  | (Exc e, c) => modify (set_affected_books (c_affected_books c));; raise e
  | (OutOfFuel, c) => fun st => (OutOfFuel, st)
  end.

Definition find_affected_books : M py_books :=
  build_all_books ← scan;
  when (negb build_all_books) (close_modified;; ret tt);;
  books ← gets books;
  affected_books ← gets affected_books;
  if truthy (only_book w) then
    modify (print "Building specified books.");; ret (BookList books)
  else if (build_all_books : bool) then
    modify (print "Building all books.");; ret (BookList books)
  else if bool_decide (affected_books ≠ ∅) then
    ret (BookSet affected_books)
  else
    modify (print "No books are affected by modified files. Building all books.");;
    ret (BookList books).

(** The state at the call: [book_root = rootdir], [books = []], empty
    sets and dictionaries. *)
Definition initial : state :=
  {| cwd := start_cwd w; stdout := []; books := []; book_root := rootdir;
     affected_books := ∅; included_by := ∅; book_bk := ∅;
     visited := []; parsed := [] |}.

Definition run_find_affected_books : res py_books * state :=
  find_affected_books initial.

End FindAffectedBooksMain.

(** ** Vocabulary of the properties *)

(** The result and the state of the tree walk alone. *)
Definition discovered_books (w : world) (rootdir : string)
    (book_exceptions file_exceptions : list string) (verbose force : bool)
    (ignore_dirs : list string) : list string :=
  books (scan w rootdir book_exceptions file_exceptions verbose force ignore_dirs
           (initial w rootdir)).2.

(** A "build everything" trigger other than [only_book]: the force flag,
    or a special file in the output of git. *)
Definition build_everything (w : world) (force : bool) : Prop :=
  force = true
  ∨ ∃ modified_files f,
      git_diff_name_only w = inr modified_files
      ∧ f ∈ modified_files ∧ f ∈ special_files.

Section OsWalk.

Variable ignore_dirs : list string.

Section Entries.
Variable rec : string -> fs -> list (string * list string).

Fixpoint os_walk_entries (dirs : list string) (entries : list (string * fs))
  : list (string * list string) :=
  match entries with
  | [] => []
  | (name, sub) :: rest =>
      (if Py.mem name dirs then rec name sub else [])
      ++ os_walk_entries dirs rest
  end.
End Entries.

(** What [os.walk(top)] yields, as pairs [(root, files)], to a loop body
    that prunes [dirs] as [find_affected_books] does and never leaves
    the loop: the directories reachable from [top] through directories
    that are neither named [target], nor hidden, nor to be ignored. *)
Fixpoint os_walk (top : string) (t : fs) : list (string * list string) :=
  match t with
  | Dir entries files =>
      (top, files)
      :: os_walk_entries (fun name sub => os_walk (PosixPath.join top name) sub)
           (prune_dirs ignore_dirs (map fst entries)) entries
  end.

End OsWalk.

(** [f] is parsed by [scan_file]. *)
Definition parsed_name (file_exceptions : list string) (f : string) : bool :=
  Py.endswith f ".xml"
  && negb (String.eqb f "pom.xml")
  && negb (String.eqb f "ha-guide-docinfo.xml")
  && negb (Py.mem f file_exceptions).

(** [root] is a directory whose files the walk leaves alone. *)
Definition blind_spot (rootdir root : string) : bool :=
  Py.endswith root "doc" || String.eqb root rootdir.

(** [root], with the files [files], is recorded as a book when visited. *)
Definition records_book (w : world) (rootdir root : string) (files : list string)
  : bool :=
  negb (blind_spot rootdir root)
  && Py.mem "pom.xml" files
  && (negb (truthy (only_book w))
      || (truthy (only_book w) && Py.mem (PosixPath.basename root) (only_book w))).

Section BooksOfListing.

Variables (w : world) (rootdir : string) (book_exceptions : list string).

(** Some directory of the listing [l] has the base name of an excluded
    book. *)
Definition has_excluded (l : list (string * list string)) : bool :=
  existsb (fun d => Py.mem (PosixPath.basename d.1) book_exceptions) l.

(** The books among the directories of [l], up to the first directory
    with the base name of an excluded book. *)
Fixpoint books_until_excluded (l : list (string * list string)) : list string :=
  match l with
  | [] => []
  | (root, files) :: rest =>
      if Py.mem (PosixPath.basename root) book_exceptions then []
      else (if records_book w rootdir root files then [root] else [])
           ++ books_until_excluded rest
  end.

End BooksOfListing.

(** [g] is a file listed in a directory that [os.walk] yields and that is
    not a blind spot. *)
Definition scanned_file (w : world) (rootdir : string) (ignore_dirs : list string)
    (d g : string) : Prop :=
  ∃ root files f,
    (root, files) ∈ os_walk ignore_dirs rootdir (listing w)
    ∧ f ∈ files
    ∧ blind_spot rootdir root = false
    ∧ g = PosixPath.abspath d (PosixPath.join root f).

(** Some token of [git diff --name-only] starts with the path of the
    high-availability guide. *)
Definition ha_touched (modified_files : list string) : Prop :=
  ∃ f, f ∈ modified_files ∧ Py.startswith f "doc/high-availability-guide/" = true.

(** [w] with the file at [p] replaced by an empty document. *)
Definition with_empty_document (p : string) (w : world) : world :=
  {| start_cwd := start_cwd w; listing := listing w;
     etree_parse := fun q =>
       if String.eqb q p then Document [] [] else etree_parse w q;
     git_diff_name_only := git_diff_name_only w;
     git_diff_relative_ACMRT := git_diff_relative_ACMRT w;
     only_book := only_book w |}.

(** Two states that differ in what has been printed at most. *)
Definition same_but_stdout (st st' : state) : Prop :=
  cwd st = cwd st' ∧ books st = books st' ∧ book_root st = book_root st'
  ∧ affected_books st = affected_books st'
  ∧ included_by st = included_by st' ∧ book_bk st = book_bk st'
  ∧ visited st = visited st' ∧ parsed st = parsed st'.

(** Every book the walk has attributed anything to is a discovered book
    or [rootdir], the first value of [book_root]. *)
Definition owned_by_books (rootdir : string) (st : state) : Prop :=
  (book_root st ∈ books st ∨ book_root st = rootdir)
  ∧ (∀ b, b ∈ affected_books st -> b ∈ books st ∨ b = rootdir)
  ∧ (∀ k b, book_bk st !! k = Some b -> b ∈ books st ∨ b = rootdir).

(** Nothing has been recorded for a blind spot: no book, no master file
    and no includer. *)
Definition blind_spots_untouched (w : world) (rootdir : string)
    (ignore_dirs : list string) (d : string) (st : state) : Prop :=
  cwd st = d
  ∧ (∀ b, b ∈ books st -> blind_spot rootdir b = false)
  ∧ (∀ k, is_Some (book_bk st !! k) -> scanned_file w rootdir ignore_dirs d k)
  ∧ (∀ target includers_t g,
       included_by st !! target = Some includers_t -> g ∈ includers_t ->
       scanned_file w rootdir ignore_dirs d g).

(** The list [modified_files] of step 2, as absolute paths, when the
    scan has ended in state [st]: [get_modified_files] changes to
    [rootdir] first. *)
Definition changed_files (w : world) (rootdir : string) (st : state) : list string :=
  match git_diff_relative_ACMRT w with
  | inr modified_files =>
      map (PosixPath.abspath (PosixPath.abspath (cwd st) rootdir)) modified_files
  | inl _ => []
  end.

(** The closure loop as [close_modified] runs it after a scan that has
    ended in state [st]. *)
Definition closure_of (w : world) (rootdir : string) (st : state)
  : res unit * closure :=
  while_new_files (included_by st) (book_bk st) (closure_fuel (included_by st))
    (start_closure (changed_files w rootdir st) (affected_books st)).

(** The locals are as at the call. *)
Definition fresh_locals (rootdir : string) (st : state) : Prop :=
  books st = [] ∧ book_root st = rootdir ∧ affected_books st = ∅
  ∧ included_by st = ∅ ∧ book_bk st = ∅ ∧ visited st = [] ∧ parsed st = [].

(** From [st] to [st'] nothing but [books], [book_root] and the trace
    of visited directories has changed. *)
Definition only_books_change (st st' : state) : Prop :=
  cwd st' = cwd st ∧ stdout st' = stdout st
  ∧ affected_books st' = affected_books st
  ∧ included_by st' = included_by st ∧ book_bk st' = book_bk st
  ∧ parsed st' = parsed st.

(** [m] never uses up a budget of rounds. *)
Definition total {A} (m : M A) : Prop :=
  ∀ st, (m st).1 ≠ OutOfFuel.

(** [m] keeps the invariant [I]. *)
Definition keeps {A} (I : state -> Prop) (m : M A) : Prop :=
  ∀ st, I st -> I (m st).2.

(** [m] and [m'] do the same, printing apart. *)
Definition alike {A} (m m' : M A) : Prop :=
  ∀ st st', same_but_stdout st st' ->
    (m st).1 = (m' st').1 ∧ same_but_stdout (m st).2 (m' st').2.

(** How often [x] occurs in [l]. *)
Definition times (x : string) (l : list string) : nat :=
  count_occ String.string_dec l x.

Section ClosureVocabulary.

Variable G : gmap string (gset string).
Variable B : gmap string string.

(** What a step of the closure can do to the variables: the two sets
    only grow, a file appended to [new_files] is an includer that was
    not affected before, and a book added is some master file's. *)
Record advances (c c' : closure) : Prop := {
  adv_files : affected_files c ⊆ affected_files c';
  adv_books : c_affected_books c ⊆ c_affected_books c';
  adv_fresh : ∀ x, x ∈ new_files c' ->
    x ∈ new_files c
    ∨ (x ∈ includers G ∧ (x ∉ affected_files c) ∧ x ∈ affected_files c');
  adv_owner : ∀ b, b ∈ c_affected_books c' ->
    b ∈ c_affected_books c ∨ ∃ m, B !! m = Some b
}.

(** With [todo] the part of [new_files_to_check] still to come: among
    the files taken, those still to take and those appended, a file
    occurs once at most, or as often as the list [changed] of changed
    files names it; and all of them are in [affected_files]. *)
Definition tidy (changed todo : list string) (c : closure) : Prop :=
  (∀ x, (times x (dequeued c ++ todo ++ new_files c)
         <= Nat.max 1 (times x changed))%nat)
  ∧ ∀ x, x ∈ dequeued c ++ todo ++ new_files c -> x ∈ affected_files c.

(** [f] has been dealt with: its book is in [affected_books] if it is a
    master file, and its includers are all in [affected_files] if it is
    not. *)
Definition settled (c : closure) (f : string) : Prop :=
  if is_book_master (PosixPath.basename f)
  then ∃ b, B !! f = Some b ∧ b ∈ c_affected_books c
  else ∀ s, G !! f = Some s -> s ⊆ affected_files c.

Definition closed_but (todo : list string) (c : closure) : Prop :=
  ∀ f, f ∈ affected_files c -> f ∈ todo ∨ f ∈ new_files c ∨ settled c f.

(** A chain of inclusion edges from [f] up to [m], none of whose files
    before [m] has the name of a master file. *)
Inductive chain : string -> string -> Prop :=
  | chain_end m : chain m m
  | chain_edge f g m includers_f :
      is_book_master (PosixPath.basename f) = false ->
      G !! f = Some includers_f -> g ∈ includers_f ->
      chain g m -> chain f m.

(** The same without the condition on the names: any chain of
    inclusion edges. *)
Inductive any_chain : string -> string -> Prop :=
  | any_chain_end m : any_chain m m
  | any_chain_edge f g m includers_f :
      G !! f = Some includers_f -> g ∈ includers_f ->
      any_chain g m -> any_chain f m.

End ClosureVocabulary.

(** The directories that claim C5 says are visited, in its words: every
    directory reachable from the root but the hidden ones, those named in
    the ignore set, and the subtree rooted at a directory whose base name
    is an excluded book. *)
Section ClaimedVisits.

Variables (ignore_dirs book_exceptions : list string).

Section Entries.
Variable rec : string -> fs -> list string.

Fixpoint claimed_visits_entries (top : string) (entries : list (string * fs))
  : list string :=
  match entries with
  | [] => []
  | (name, sub) :: rest =>
      (if Py.startswith name "."
          || Py.mem name ignore_dirs
          || Py.mem (PosixPath.basename (PosixPath.join top name)) book_exceptions
       then [] else rec name sub)
      ++ claimed_visits_entries top rest
  end.
End Entries.

Fixpoint claimed_visits (top : string) (t : fs) : list string :=
  match t with
  | Dir entries _ =>
      top :: claimed_visits_entries
               (fun name sub => claimed_visits (PosixPath.join top name) sub)
               top entries
  end.

End ClaimedVisits.

(** ** Example trees *)

Module Scenario.

(** The parser of a world in which the files of [docs] are as listed
    and every other file is an empty document. *)
Fixpoint parse_of (docs : list (string * parse_result)) (p : string)
  : parse_result :=
  match docs with
  | [] => Document [] []
  | (q, r) :: rest => if String.eqb q p then r else parse_of rest p
  end.

(** A checkout at [/r], the process started there, the tree [t] at
    [/r/doc]. *)
Definition checkout (t : fs) (docs : list (string * parse_result))
    (diff diff_relative : list string) : world :=
  {| start_cwd := "/r"; listing := t; etree_parse := parse_of docs;
     git_diff_name_only := inr diff;
     git_diff_relative_ACMRT := inr diff_relative;
     only_book := [] |}.

Definition rootdir : string := "/r/doc".

Definition run (w : world) (book_exceptions ignore_dirs : list string)
  : res py_books * state :=
  run_find_affected_books w rootdir book_exceptions [] false false ignore_dirs.

(** Two books, each with a master file that includes one chapter. *)
Definition two_books_tree : fs :=
  Dir [("a", Dir [] ["pom.xml"; "bk-a.xml"; "ch1.xml"]);
       ("b", Dir [] ["pom.xml"; "bk-b.xml"; "ch2.xml"])]
      ["pom.xml"].

Definition two_books_docs : list (string * parse_result) :=
  [("/r/doc/a/bk-a.xml", Document [] [Some "ch1.xml"]);
   ("/r/doc/b/bk-b.xml", Document [] [Some "ch2.xml"])].

(** Scenario 1: a chapter of book [a] has changed. *)
Definition chapter_changed : world :=
  checkout two_books_tree two_books_docs ["doc/a/ch1.xml"] ["a/ch1.xml"].

(** Scenario 2: the build script has changed. *)
Definition script_changed : world :=
  checkout two_books_tree two_books_docs ["tools/test.py"] [].

(** Scenario 3: a file that nothing includes has changed. *)
Definition orphan_changed : world :=
  checkout two_books_tree two_books_docs ["doc/orphan.xml"] ["orphan.xml"].

(** The chapter of scenario 1 is not XML. *)
Definition chapter_broken : world :=
  checkout two_books_tree
    (("/r/doc/a/ch1.xml", XMLSyntaxError "Start tag expected") :: two_books_docs)
    ["doc/a/ch1.xml"] ["a/ch1.xml"].

(** The master file of book [b] includes the master file of book [a]. *)
Definition master_includes_master : world :=
  checkout two_books_tree
    [("/r/doc/a/bk-a.xml", Document [] [Some "ch1.xml"]);
     ("/r/doc/b/bk-b.xml", Document [] [Some "../a/bk-a.xml"])]
    ["doc/a/ch1.xml"] ["a/ch1.xml"].

(** The master file of a book in an ignored directory has changed. *)
Definition ignored_master_changed : world :=
  checkout
    (Dir [("training-guides", Dir [] ["pom.xml"; "bk-training.xml"]);
          ("user-guide", Dir [] ["pom.xml"; "bk-user-guide.xml"])]
         ["pom.xml"])
    []
    ["doc/training-guides/bk-training.xml"] ["training-guides/bk-training.xml"].

(** Three sub-directories, the first an excluded book, the last a
    build directory. *)
Definition three_dirs : world :=
  checkout
    (Dir [("a", Dir [] ["pom.xml"; "bk-a.xml"]);
          ("b", Dir [] ["pom.xml"; "bk-b.xml"]);
          ("target", Dir [] ["out.xml"])]
         ["pom.xml"])
    [] [] [].

(** The high-availability guide includes a common section, which has
    changed. *)
Definition ha_guide : world :=
  checkout
    (Dir [("common", Dir [] ["section_x.xml"]);
          ("high-availability-guide", Dir [] ["pom.xml"; "bk-ha-guide.xml"])]
         ["pom.xml"])
    [("/r/doc/high-availability-guide/bk-ha-guide.xml",
      Document [] [Some "../common/section_x.xml"])]
    ["doc/common/section_x.xml"] ["common/section_x.xml"].

(** The same, with a changed file of the guide itself. *)
Definition ha_guide_touched_world : world :=
  checkout (listing ha_guide) []
    ["doc/high-availability-guide/ha.txt"] ["high-availability-guide/ha.txt"].

(** The glossary, in a directory without [pom.xml] that the walk meets
    before the first book, has changed. *)
Definition glossary_changed : world :=
  checkout
    (Dir [("glossary", Dir [] ["openstack-glossary.xml"]);
          ("user-guide", Dir [] ["pom.xml"; "bk-user-guide.xml"])]
         ["pom.xml"])
    []
    ["doc/glossary/openstack-glossary.xml"] ["glossary/openstack-glossary.xml"].

(** Scenario 4: [ch0.xml] includes itself and is included by [ch1.xml],
    which the master file includes; [ch0.xml] has changed. *)
Definition cycle_changed : world :=
  checkout
    (Dir [("a", Dir [] ["pom.xml"; "bk-a.xml"; "ch0.xml"; "ch1.xml"])] ["pom.xml"])
    [("/r/doc/a/bk-a.xml", Document [] [Some "ch1.xml"]);
     ("/r/doc/a/ch1.xml", Document [] [Some "ch0.xml"]);
     ("/r/doc/a/ch0.xml", Document [] [Some "ch0.xml"])]
    ["doc/a/ch0.xml"] ["a/ch0.xml"].

(** Two chapters of book [a] whose names hold a blank have changed:
    git prints one name per line, and the output is cut at every white
    space. *)
Definition names_with_blanks : world :=
  checkout
    (Dir [("a", Dir [] ["pom.xml"; "bk-a.xml"; "my chapter.xml"; "my section.xml"])]
         ["pom.xml"])
    [("/r/doc/a/bk-a.xml",
      Document [] [Some "my chapter.xml"; Some "my section.xml"])]
    ["doc/a/my"; "chapter.xml"; "doc/a/my"; "section.xml"]
    ["a/my"; "chapter.xml"; "a/my"; "section.xml"].

(** The dictionaries that the walk builds in scenario 4. *)
Definition cyclic_graph : gmap string (gset string) :=
  {[ "/r/doc/a/ch0.xml" := {[ "/r/doc/a/ch0.xml"; "/r/doc/a/ch1.xml" ]};
     "/r/doc/a/ch1.xml" := {[ "/r/doc/a/bk-a.xml" ]} ]}.

Definition cyclic_masters : gmap string string :=
  {[ "/r/doc/a/bk-a.xml" := "/r/doc/a" ]}.

End Scenario.
(** ** Facts about the monad and the loops *)

Lemma fs_ind (P : fs -> Prop) :
  (∀ entries files, Forall (fun e => P e.2) entries -> P (Dir entries files)) ->
  ∀ t, P t.
Proof.
  intros H. fix IH 1. intros [entries files]. apply H.
  induction entries as [|[name sub] rest IHrest]; constructor; [apply IH|apply IHrest].
Qed.

Section MonadFacts.

Context {A B : Type}.
Implicit Types (m : M A) (k : A -> M B).

Lemma bind_unfold m k st :
  (m ≫= k) st =
  match m st with
  | (Val a, st') => k a st'
  | (Exc e, st') => (Exc e, st')
  | (OutOfFuel, st') => (OutOfFuel, st')
  end.
Proof. reflexivity. Qed.

Lemma bind_val m k st a st' : m st = (Val a, st') -> (m ≫= k) st = k a st'.
Proof. intros H. by rewrite bind_unfold, H. Qed.

Lemma bind_inv_val m k st b st2 :
  (m ≫= k) st = (Val b, st2) ->
  ∃ a st1, m st = (Val a, st1) ∧ k a st1 = (Val b, st2).
Proof.
  rewrite bind_unfold. destruct (m st) as [[a| |] st1]; [eauto|done..].
Qed.

Lemma keeps_bind I m k :
  keeps I m -> (∀ a, keeps I (k a)) -> keeps I (m ≫= k).
Proof.
  intros Hm Hk st Hst. rewrite bind_unfold. specialize (Hm st Hst).
  destruct (m st) as [[a| |] st1]; simpl in *; [by apply Hk|done..].
Qed.

Lemma alike_bind m m' k k' :
  alike m m' -> (∀ a, alike (k a) (k' a)) -> alike (m ≫= k) (m' ≫= k').
Proof.
  intros Hm Hk st st' Hst. rewrite !bind_unfold. destruct (Hm st st' Hst) as [Hr Hs].
  destruct (m st) as [[a| |] st1], (m' st') as [[a'| |] st1']; simpl in *;
    try discriminate; try done.
  - injection Hr as <-. by apply Hk.
  - by injection Hr as <-.
Qed.

End MonadFacts.

Lemma keeps_ret {A} I (a : A) : keeps I (ret a).
Proof. by intros st. Qed.

Lemma keeps_raise {A} I e : keeps I (raise (A:=A) e).
Proof. by intros st. Qed.

Lemma keeps_gets {A} I (f : state -> A) : keeps I (gets f).
Proof. by intros st. Qed.

Lemma keeps_gets_bind {A B} I (f : state -> A) (k : A -> M B) :
  (∀ st0, I st0 -> keeps I (k (f st0))) -> keeps I (gets f ≫= k).
Proof. intros H st Hst. apply (H st Hst st Hst). Qed.

Lemma keeps_modify I f : (∀ st, I st -> I (f st)) -> keeps I (modify f).
Proof. intros H st. apply H. Qed.

Lemma keeps_when I c body : keeps I body -> keeps I (when c body).
Proof. intros H. destruct c; [done|apply keeps_ret]. Qed.

Lemma keeps_for_each {A} I (l : list A) body :
  (∀ x, x ∈ l -> keeps I (body x)) -> keeps I (for_each l body).
Proof.
  induction l as [|x l IH]; intros H; simpl; [apply keeps_ret|].
  apply keeps_bind; [apply H; left|intros _; apply IH].
  intros y Hy. apply H. by right.
Qed.

Lemma total_bind {A B} (m : M A) (k : A -> M B) :
  total m -> (∀ a, total (k a)) -> total (m ≫= k).
Proof.
  intros Hm Hk st. rewrite bind_unfold. specialize (Hm st).
  destruct (m st) as [[a| |] st1]; simpl in *; [apply Hk|done..].
Qed.

Lemma total_ret {A} (a : A) : total (ret a).
Proof. by intros st. Qed.

Lemma total_raise {A} e : total (raise (A:=A) e).
Proof. by intros st. Qed.

Lemma total_gets {A} (f : state -> A) : total (gets f).
Proof. by intros st. Qed.

Lemma total_modify f : total (modify f).
Proof. by intros st. Qed.

Lemma total_when c body : total body -> total (when c body).
Proof. intros H. destruct c; [done|apply total_ret]. Qed.

Lemma total_for_each {A} (l : list A) body :
  (∀ x, total (body x)) -> total (for_each l body).
Proof.
  intros H. induction l as [|x l IH]; simpl; [apply total_ret|].
  apply total_bind; [apply H|by intros _].
Qed.

Ltac total_step :=
  lazymatch goal with
  | |- total (_ ≫= _) => apply total_bind; [|intros ?]
  | |- total (ret _) => apply total_ret
  | |- total (raise _) => apply total_raise
  | |- total (gets _) => apply total_gets
  | |- total (modify _) => apply total_modify
  | |- total (when _ _) => apply total_when
  | |- total (for_each _ _) => apply total_for_each; intros ?
  | |- total (if ?c then _ else _) => destruct c
  | |- total (match ?x with _ => _ end) => destruct x
  end.

Lemma same_but_stdout_refl st : same_but_stdout st st.
Proof. by repeat split. Qed.

Lemma alike_ret {A} (a : A) : alike (ret a) (ret a).
Proof. by intros st st' H. Qed.

Lemma alike_raise {A} e : alike (raise (A:=A) e) (raise e).
Proof. by intros st st' H. Qed.

Lemma alike_modify f f' :
  (∀ st st', same_but_stdout st st' -> same_but_stdout (f st) (f' st')) ->
  alike (modify f) (modify f').
Proof. intros H st st' Hst. split; [done|by apply H]. Qed.

Lemma alike_gets {A} (f : state -> A) :
  (∀ st st', same_but_stdout st st' -> f st = f st') -> alike (gets f) (gets f).
Proof. intros H st st' Hst. split; [simpl; f_equal; by apply H|done]. Qed.

Lemma alike_when c body body' :
  alike body body' -> alike (when c body) (when c body').
Proof. intros H. destruct c; [done|apply alike_ret]. Qed.

Lemma alike_for_each {A} (l : list A) body body' :
  (∀ x, alike (body x) (body' x)) -> alike (for_each l body) (for_each l body').
Proof.
  intros H. induction l as [|x l IH]; simpl; [apply alike_ret|].
  apply alike_bind; [apply H|by intros _].
Qed.

(** One step of a proof that a computation keeps an invariant. *)
Ltac keeps_step :=
  lazymatch goal with
  | |- keeps _ (gets _ ≫= _) =>
      let st0 := fresh "st0" in let Hst0 := fresh "Hst0" in
      apply keeps_gets_bind; intros st0 Hst0
  | |- keeps _ (_ ≫= _) => apply keeps_bind; [|intros ?]
  | |- keeps _ (ret _) => apply keeps_ret
  | |- keeps _ (raise _) => apply keeps_raise
  | |- keeps _ (gets _) => apply keeps_gets
  | |- keeps _ (modify _) =>
      let st := fresh "st" in let Hst := fresh "Hst" in
      apply keeps_modify; intros st Hst
  | |- keeps _ (when _ _) => apply keeps_when
  | |- keeps _ (for_each _ _) => apply keeps_for_each; intros ? ?
  | |- keeps _ (if ?c then _ else _) => destruct c eqn:?
  | |- keeps _ (match ?x with _ => _ end) => destruct x eqn:?
  end.

Section WalkFacts.

Variable w : world.
Variables (rootdir : string) (book_exceptions file_exceptions : list string).
Variables (verbose force : bool) (ignore_dirs : list string).

Local Abbreviation Visit :=
  (visit w rootdir book_exceptions file_exceptions).
Local Abbreviation Walk :=
  (walk w rootdir book_exceptions file_exceptions ignore_dirs).
Local Abbreviation ScanFile := (scan_file w file_exceptions).
Local Abbreviation OsWalk := (os_walk ignore_dirs).

Lemma walk_unfold b top entries files :
  Walk b top (Dir entries files) =
  (fl ← Visit b top files;
   match fl with
   | Break => ret Break
   | Continue =>
       walk_entries (fun name sub => Walk b (PosixPath.join top name) sub)
         (prune_dirs ignore_dirs (map fst entries)) entries
   end).
Proof. reflexivity. Qed.

Lemma keeps_walk I b t :
  ∀ top,
    (∀ root files, (root, files) ∈ OsWalk top t -> keeps I (Visit b root files)) ->
    keeps I (Walk b top t).
Proof.
  induction t as [entries files IH] using fs_ind. intros top Hv.
  rewrite walk_unfold. apply keeps_bind; [apply Hv; left|].
  intros [|]; [|apply keeps_ret].
  assert (∀ root files',
    (root, files') ∈ os_walk_entries
       (fun name sub => OsWalk (PosixPath.join top name) sub)
       (prune_dirs ignore_dirs (map fst entries)) entries ->
    keeps I (Visit b root files')) as Hv'.
  { intros root files' Hin. apply Hv. by right. }
  clear Hv. generalize dependent (prune_dirs ignore_dirs (map fst entries)).
  intros dirs. induction IH as [|[name sub] rest Hsub _ IHrest]; intros Hv; simpl in *.
  - apply keeps_ret.
  - assert (keeps I (walk_entries
              (fun name sub => Walk b (PosixPath.join top name) sub) dirs rest)) as Hrest.
    { apply IHrest. intros root files' Hin. apply Hv, elem_of_app. by right. }
    destruct (Py.mem name dirs); [|done].
    apply keeps_bind.
    + apply Hsub. intros root files' Hin. apply Hv, elem_of_app. by left.
    + intros [|]; [done|apply keeps_ret].
Qed.

Lemma total_walk b t :
  ∀ top, (∀ root files, total (Visit b root files)) -> total (Walk b top t).
Proof.
  induction t as [entries files IH] using fs_ind. intros top Hv.
  rewrite walk_unfold. apply total_bind; [apply Hv|].
  intros [|]; [|apply total_ret].
  generalize (prune_dirs ignore_dirs (map fst entries)). intros dirs.
  induction IH as [|[name sub] rest Hsub _ IHrest]; simpl in *.
  - apply total_ret.
  - destruct (Py.mem name dirs); [|done].
    apply total_bind; [by apply Hsub|].
    intros [|]; [done|apply total_ret].
Qed.

End WalkFacts.
(** ** Facts about the closure *)

Section ClosureFacts.

Variable G : gmap string (gset string).
Variable B : gmap string string.

Local Abbreviation advances := (advances G B).
Local Abbreviation settled := (settled G B).
Local Abbreviation closed_but := (closed_but G B).
Local Abbreviation chain := (chain G).

Lemma while_new_files_nil fuel c :
  new_files c = [] -> while_new_files G B fuel c = (Val tt, c).
Proof. intros H. destruct fuel; simpl; by rewrite H. Qed.

Lemma while_new_files_round fuel c :
  new_files c ≠ [] ->
  while_new_files G B (S fuel) c =
  match check_files G B (new_files c) (clear_new_files c) with
  | (Val _, c') => while_new_files G B fuel c'
  | r => r
  end.
Proof. intros H. simpl. by destruct (new_files c). Qed.

Lemma advances_refl c : advances c c.
Proof. split; auto. Qed.

Lemma advances_trans c1 c2 c3 :
  advances c1 c2 -> advances c2 c3 -> advances c1 c3.
Proof.
  intros [F1 B1 N1 O1] [F2 B2 N2 O2]. split.
  - set_solver.
  - set_solver.
  - intros x Hx. destruct (N2 x Hx) as [H|(HU & Hn & Ha)].
    + destruct (N1 x H) as [?|(? & ? & ?)]; [by left|]. right. set_solver.
    + right. set_solver.
  - intros b Hb. destruct (O2 b Hb) as [H|H]; [|by right]. by apply O1.
Qed.

Lemma elem_of_includers f s g : G !! f = Some s -> g ∈ s -> g ∈ includers G.
Proof.
  intros Hf Hg. unfold includers. apply elem_of_union_list.
  exists s. split; [|done].
  apply list_elem_of_fmap. exists (f, s). split; [done|].
  by apply elem_of_map_to_list.
Qed.

Lemma enqueue_advances c g : g ∈ includers G -> advances c (enqueue c g).
Proof.
  intros HU. unfold enqueue. destruct (decide _) as [|Hn]; [apply advances_refl|].
  split; simpl; [set_solver|done| |auto].
  intros x [Hx| ->%list_elem_of_singleton]%elem_of_app; [by left|].
  right. set_solver.
Qed.

Lemma foldl_enqueue_advances l c :
  (∀ g, g ∈ l -> g ∈ includers G) -> advances c (foldl enqueue c l).
Proof.
  revert c. induction l as [|g l IH]; intros c HU; simpl.
  - apply advances_refl.
  - eapply advances_trans.
    + apply enqueue_advances, HU. left.
    + apply IH. intros; apply HU. by right.
Qed.

Lemma foldl_enqueue_covers l c g :
  g ∈ l -> g ∈ affected_files (foldl enqueue c l).
Proof.
  revert c. induction l as [|x l IH]; intros c Hg; [by apply elem_of_nil in Hg|].
  apply elem_of_cons in Hg as [->|Hg]; simpl; [|by apply IH].
  assert (x ∈ affected_files (enqueue c x)) as Hx.
  { unfold enqueue. destruct (decide _); simpl; set_solver. }
  clear IH. revert Hx. generalize (enqueue c x). induction l as [|y l IH]; [done|].
  intros c' Hx. simpl. apply IH.
  unfold enqueue. destruct (decide _); simpl; set_solver.
Qed.

Lemma dequeue_advances f c : advances c (dequeue f c).
Proof. split; auto. Qed.

Lemma add_book_advances m b c : B !! m = Some b -> advances c (add_book b c).
Proof.
  intros Hm. unfold add_book. destruct (decide _); [apply advances_refl|].
  split; simpl; [done|set_solver|auto|].
  intros b' [H| ->%elem_of_singleton]%elem_of_union; [by left|]. right; eauto.
Qed.

Lemma check_file_advances f c : advances c (check_file G B f c).2.
Proof.
  unfold check_file.
  destruct (is_book_master _).
  - destruct (B !! f) as [b|] eqn:Hb; simpl; [|apply dequeue_advances].
    eapply advances_trans; [apply dequeue_advances|by eapply add_book_advances].
  - destruct (G !! f) as [s|] eqn:Hs; simpl; [|apply dequeue_advances].
    eapply advances_trans; [apply dequeue_advances|].
    apply foldl_enqueue_advances.
    intros g Hg%elem_of_elements. by eapply elem_of_includers.
Qed.

Lemma check_files_advances l c : advances c (check_files G B l c).2.
Proof.
  revert c. induction l as [|f l IH]; intros c; simpl; [apply advances_refl|].
  pose proof (check_file_advances f c) as Hf.
  destruct (check_file G B f c) as [[[]| |] c']; simpl in *; try done.
  eapply advances_trans; [exact Hf|apply IH].
Qed.

Lemma clear_new_files_advances c : advances c (clear_new_files c).
Proof. split; simpl; auto. intros x Hx. by apply elem_of_nil in Hx. Qed.

Lemma while_new_files_advances fuel c :
  advances c (while_new_files G B fuel c).2.
Proof.
  revert c. induction fuel as [|fuel IH]; intros c.
  - simpl. destruct (new_files c); apply advances_refl.
  - destruct (new_files c) as [|f N] eqn:HN.
    { rewrite while_new_files_nil by done. apply advances_refl. }
    rewrite while_new_files_round by (by rewrite HN).
    pose proof (check_files_advances (new_files c) (clear_new_files c)) as Hadv.
    destruct (check_files G B (new_files c) (clear_new_files c)) as [[[]| |] c'];
      simpl in *.
    + eapply advances_trans; [apply clear_new_files_advances|].
      eapply advances_trans; [exact Hadv|apply IH].
    + eapply advances_trans; [apply clear_new_files_advances|done].
    + eapply advances_trans; [apply clear_new_files_advances|done].
Qed.

(** *** Termination *)

Lemma round_decreases c c' :
  new_files c = [] -> advances c c' -> new_files c' ≠ [] ->
  size (includers G ∖ affected_files c') < size (includers G ∖ affected_files c).
Proof.
  intros Hnil Hadv Hne.
  destruct (new_files c') as [|x N] eqn:HN; [done|].
  destruct (adv_fresh _ _ _ _ Hadv x) as [Hx|(HU & Hn & Ha)].
  { rewrite HN. left. }
  { rewrite Hnil in Hx. by apply elem_of_nil in Hx. }
  apply subset_size. pose proof (adv_files _ _ _ _ Hadv) as HF. split.
  - intros y [Hy Hy']%elem_of_difference. apply elem_of_difference.
    split; [done|]. intros Hc. by apply Hy', HF.
  - intros Hsub. specialize (Hsub x). rewrite !elem_of_difference in Hsub.
    by destruct Hsub as [_ Hx'].
Qed.

Lemma while_new_files_enough fuel c :
  new_files c = [] ∨ size (includers G ∖ affected_files c) < fuel ->
  (while_new_files G B fuel c).1 ≠ OutOfFuel.
Proof.
  revert c. induction fuel as [|fuel IH]; intros c Hc.
  - destruct Hc as [Hc|Hc]; [|lia]. by rewrite while_new_files_nil.
  - destruct (new_files c) as [|f N] eqn:HN.
    { by rewrite while_new_files_nil. }
    destruct Hc as [Hc|Hc]; [done|].
    rewrite while_new_files_round by (by rewrite HN).
    pose proof (check_files_advances (new_files c) (clear_new_files c)) as Hadv.
    destruct (check_files G B (new_files c) (clear_new_files c)) as [[[]| |] c'] eqn:Hr;
      simpl in *; try done.
    { apply IH. destruct (new_files c') eqn:HN'; [by left|right].
      assert (new_files c' ≠ []) as Hne by (by rewrite HN').
      pose proof (round_decreases (clear_new_files c) c' eq_refl Hadv Hne) as Hlt.
      simpl in Hlt. lia. }
    (* an exception in the round: [check_files] never runs out of fuel *)
    exfalso. clear -Hr. revert Hr. generalize (clear_new_files c).
    induction (new_files c) as [|x l IHl]; intros c0; simpl; [done|].
    unfold check_file at 1.
    destruct (is_book_master _); [destruct (B !! x)|destruct (G !! x)]; eauto; done.
Qed.

Lemma while_new_files_more_fuel fuel :
  ∀ fuel' c,
    (while_new_files G B fuel c).1 ≠ OutOfFuel -> (fuel <= fuel')%nat ->
    while_new_files G B fuel' c = while_new_files G B fuel c.
Proof.
  induction fuel as [|fuel IH]; intros fuel' c Hok Hle.
  - destruct (new_files c) as [|f N] eqn:HN.
    + by rewrite !while_new_files_nil.
    + simpl in Hok. by rewrite HN in Hok.
  - destruct fuel' as [|fuel']; [lia|].
    destruct (new_files c) as [|f N] eqn:HN.
    { by rewrite !while_new_files_nil. }
    rewrite !while_new_files_round in * by (by rewrite HN).
    destruct (check_files G B (new_files c) (clear_new_files c)) as [[[]| |] c'];
      [|done..].
    apply IH; [done|lia].
Qed.

Lemma closure_fuel_enough c :
  (while_new_files G B (closure_fuel G) c).1 ≠ OutOfFuel.
Proof.
  apply while_new_files_enough. right. unfold closure_fuel.
  apply Nat.lt_succ_r, subseteq_size. by intros y [Hy _]%elem_of_difference.
Qed.

(** *** No file is taken twice *)

Lemma times_app x l l' : times x (l ++ l') = (times x l + times x l')%nat.
Proof. apply count_occ_app. Qed.

Lemma times_not_elem x l : x ∉ l -> times x l = 0.
Proof. intros H. apply count_occ_not_In. by rewrite <-list_elem_of_In. Qed.

Lemma times_singleton x y : times x [y] = if decide (x = y) then 1 else 0.
Proof.
  unfold times. simpl. destruct (String.string_dec y x), (decide (x = y)); congruence.
Qed.

Section Tidy.

Variable changed : list string.
Local Abbreviation Tidy := (tidy changed).

Lemma enqueue_tidy todo c g : Tidy todo c -> Tidy todo (enqueue c g).
Proof.
  intros [Hcount Hin]. unfold enqueue. destruct (decide _) as [|Hg]; [done|].
  split; simpl.
  - intros x. specialize (Hcount x).
    rewrite !app_assoc, times_app, times_singleton.
    rewrite !app_assoc in Hcount. destruct (decide (x = g)) as [->|]; [|lia].
    rewrite times_not_elem; [lia|]. intros Hx. apply Hg, Hin.
    by rewrite !app_assoc.
  - intros x. rewrite !app_assoc.
    intros [Hx| ->%list_elem_of_singleton]%elem_of_app; [|set_solver].
    apply elem_of_union_l, Hin. by rewrite !app_assoc.
Qed.

Lemma foldl_enqueue_tidy todo l c : Tidy todo c -> Tidy todo (foldl enqueue c l).
Proof.
  revert c. induction l as [|g l IH]; intros c Hc; simpl; [done|].
  by apply IH, enqueue_tidy.
Qed.

Lemma dequeue_tidy f todo c : Tidy (f :: todo) c -> Tidy todo (dequeue f c).
Proof.
  unfold tidy, dequeue. simpl. rewrite <-!app_assoc. done.
Qed.

Lemma add_book_tidy b todo c : Tidy todo c -> Tidy todo (add_book b c).
Proof. unfold add_book. by destruct (decide _). Qed.

Lemma check_file_tidy f todo c :
  Tidy (f :: todo) c -> Tidy todo (check_file G B f c).2.
Proof.
  intros Hc%dequeue_tidy. unfold check_file.
  destruct (is_book_master _).
  - destruct (B !! f); simpl; [by apply add_book_tidy|done].
  - destruct (G !! f); simpl; [by apply foldl_enqueue_tidy|done].
Qed.

Lemma check_files_tidy l c :
  Tidy l c -> ∃ todo, Tidy todo (check_files G B l c).2
                      ∧ ((check_files G B l c).1 = Val tt -> todo = []).
Proof.
  revert c. induction l as [|f l IH]; intros c Hc; simpl.
  - by exists [].
  - pose proof (check_file_tidy f l c Hc) as Hf.
    destruct (check_file G B f c) as [[[]| |] c']; simpl in *.
    + by apply IH.
    + by exists l.
    + by exists l.
Qed.

Lemma tidy_dequeued todo c x :
  Tidy todo c -> (times x (dequeued c) <= Nat.max 1 (times x changed))%nat.
Proof. intros [Hcount _]. specialize (Hcount x). rewrite times_app in Hcount. lia. Qed.

Lemma while_new_files_tidy fuel c x :
  Tidy [] c ->
  (times x (dequeued (while_new_files G B fuel c).2)
   <= Nat.max 1 (times x changed))%nat.
Proof.
  revert c. induction fuel as [|fuel IH]; intros c Hc.
  - simpl. destruct (new_files c); simpl; by eapply tidy_dequeued.
  - destruct (new_files c) as [|f N] eqn:HN.
    { rewrite while_new_files_nil by done. by eapply tidy_dequeued. }
    rewrite while_new_files_round by (by rewrite HN).
    assert (Tidy (new_files c) (clear_new_files c)) as Hc0.
    { destruct Hc as [Hnd Hin]. unfold tidy. simpl in *.
      by rewrite app_nil_r. }
    destruct (check_files_tidy _ _ Hc0) as (todo & Htidy & Hnil).
    destruct (check_files G B (new_files c) (clear_new_files c)) as [[[]| |] c'];
      simpl in *.
    + apply IH. by rewrite Hnil in Htidy.
    + by eapply tidy_dequeued.
    + by eapply tidy_dequeued.
Qed.

Lemma start_closure_tidy affected : Tidy [] (start_closure changed affected).
Proof.
  split; simpl; [intros x; lia|]. intros x Hx. by apply elem_of_list_to_set.
Qed.

End Tidy.

Lemma dequeued_at_most_once fuel modified_files affected x :
  (times x (dequeued (while_new_files G B fuel
                        (start_closure modified_files affected)).2)
   <= Nat.max 1 (times x modified_files))%nat.
Proof. apply while_new_files_tidy, start_closure_tidy. Qed.

Lemma dequeued_NoDup fuel modified_files affected :
  NoDup modified_files ->
  NoDup (dequeued (while_new_files G B fuel
                     (start_closure modified_files affected)).2).
Proof.
  intros Hnd%NoDup_ListNoDup. apply NoDup_ListNoDup.
  apply (proj2 (NoDup_count_occ String.string_dec _)). intros x.
  pose proof (dequeued_at_most_once fuel modified_files affected x) as Hle.
  pose proof (proj1 (NoDup_count_occ String.string_dec modified_files) Hnd x).
  unfold times in *. lia.
Qed.

(** *** Everything reachable is reached *)

Lemma settled_mono c c' f : advances c c' -> settled c f -> settled c' f.
Proof.
  intros [HF HB _ _]. unfold settled. destruct (is_book_master _).
  - intros (b & ? & ?). exists b. split; [done|]. by apply HB.
  - intros H s Hs. etrans; [by apply H|done].
Qed.

Lemma enqueue_closed_but todo c g :
  g ∈ includers G -> closed_but todo c -> closed_but todo (enqueue c g).
Proof.
  intros HU Hc f Hf. pose proof (enqueue_advances c g HU) as Hadv.
  revert Hf. unfold enqueue in *. destruct (decide _) as [|Hg]; [by apply Hc|].
  simpl. intros [Hf| ->%elem_of_singleton]%elem_of_union.
  - destruct (Hc f Hf) as [?|[?|?]]; [by left|right; left|right; right].
    + apply elem_of_app. by left.
    + by eapply settled_mono.
  - right; left. apply elem_of_app. right. left.
Qed.

Lemma foldl_enqueue_closed_but todo l c :
  (∀ g, g ∈ l -> g ∈ includers G) ->
  closed_but todo c -> closed_but todo (foldl enqueue c l).
Proof.
  revert c. induction l as [|g l IH]; intros c HU Hc; simpl; [done|].
  apply IH; [intros; apply HU; by right|].
  apply enqueue_closed_but; [apply HU; left|done].
Qed.

Lemma check_file_closed_but f todo c c' :
  check_file G B f c = (Val tt, c') ->
  closed_but (f :: todo) c -> closed_but todo c'.
Proof.
  unfold check_file. intros Hr Hc.
  destruct (is_book_master (PosixPath.basename f)) eqn:Hm.
  - destruct (B !! f) as [b|] eqn:Hb; [|done]. injection Hr as <-.
    pose proof (add_book_advances f b (dequeue f c) Hb) as Hadv.
    intros x Hx.
    assert (x ∈ affected_files c) as Hx'.
    { revert Hx. unfold add_book. by destruct (decide _). }
    assert (new_files (add_book b (dequeue f c)) = new_files c) as ->.
    { unfold add_book. by destruct (decide _). }
    destruct (Hc x Hx') as [[->|?]%elem_of_cons|[?|?]]; auto.
    + right; right. unfold settled. rewrite Hm. exists b. split; [done|].
      unfold add_book. destruct (decide _); [done|]. simpl. set_solver.
    + right; right. eapply settled_mono; [|done].
      eapply advances_trans; [apply dequeue_advances|done].
  - destruct (G !! f) as [s|] eqn:Hs; injection Hr as <-.
    + assert (∀ g, g ∈ elements s -> g ∈ includers G) as HU.
      { intros g Hg%elem_of_elements. by eapply elem_of_includers. }
      assert (closed_but (f :: todo) (dequeue f c)) as Hc' by done.
      pose proof (foldl_enqueue_closed_but _ _ _ HU Hc') as Hcl.
      intros x Hx. destruct (Hcl x Hx) as [[->|?]%elem_of_cons|[?|?]]; auto.
      right; right. unfold settled. rewrite Hm. intros s' Hs'.
      assert (s' = s) as -> by congruence.
      intros g Hg. apply foldl_enqueue_covers. by apply elem_of_elements.
    + intros x Hx. destruct (Hc x Hx) as [[->|?]%elem_of_cons|[?|?]]; auto.
      right; right. unfold settled. rewrite Hm. intros s' Hs'. congruence.
Qed.

Lemma check_files_closed_but l c c' :
  check_files G B l c = (Val tt, c') -> closed_but l c -> closed_but [] c'.
Proof.
  revert c. induction l as [|f l IH]; intros c; simpl.
  - by intros [= <-].
  - destruct (check_file G B f c) as [[[]| |] c1] eqn:Hf; try done.
    intros Hr Hc. eapply IH; [done|]. by eapply check_file_closed_but.
Qed.

Lemma while_new_files_closed fuel c c' :
  while_new_files G B fuel c = (Val tt, c') ->
  closed_but [] c -> new_files c' = [] ∧ closed_but [] c'.
Proof.
  revert c. induction fuel as [|fuel IH]; intros c.
  - simpl. destruct (new_files c) eqn:HN; [|done]. by intros [= <-].
  - destruct (new_files c) as [|f N] eqn:HN.
    { rewrite while_new_files_nil by done. by intros [= <-]. }
    rewrite while_new_files_round by (by rewrite HN).
    destruct (check_files G B (new_files c) (clear_new_files c))
      as [[[]| |] c1] eqn:Hr; try done.
    intros Hw Hc. eapply IH; [done|].
    eapply check_files_closed_but; [done|].
    intros x Hx. destruct (Hc x Hx) as [Hn|[?|Hs]].
    + by apply elem_of_nil in Hn.
    + by left.
    + right; right. eapply settled_mono; [apply clear_new_files_advances|done].
Qed.

Lemma closure_sound modified_files affected fuel c f m b :
  while_new_files G B fuel (start_closure modified_files affected) = (Val tt, c) ->
  f ∈ modified_files -> chain f m ->
  is_book_master (PosixPath.basename m) = true -> B !! m = Some b ->
  b ∈ c_affected_books c.
Proof.
  intros Hw Hf Hch Hm Hb.
  destruct (while_new_files_closed _ _ _ Hw) as [Hnil Hcl].
  { intros x Hx. right; left. simpl in *. by apply elem_of_list_to_set in Hx. }
  assert (∀ x, x ∈ affected_files c -> settled c x) as Hall.
  { intros x Hx. destruct (Hcl x Hx) as [Hn|[Hn|?]]; [| |done].
    - by apply elem_of_nil in Hn.
    - rewrite Hnil in Hn. by apply elem_of_nil in Hn. }
  assert (f ∈ affected_files c) as Hfc.
  { pose proof (while_new_files_advances fuel (start_closure modified_files affected))
      as Hadv. rewrite Hw in Hadv. apply (adv_files _ _ _ _ Hadv). simpl.
    by apply elem_of_list_to_set. }
  clear Hw Hf Hcl. induction Hch as [m|f g m s Hnm Hs Hg _ IH].
  - specialize (Hall m Hfc). unfold settled in Hall. rewrite Hm in Hall.
    destruct Hall as (b' & ? & ?). congruence.
  - apply IH; [done..|]. specialize (Hall f Hfc). unfold settled in Hall.
    rewrite Hnm in Hall. by apply (Hall s).
Qed.

End ClosureFacts.

Arguments while_new_files : simpl never.
Arguments closure_fuel : simpl never.

(** ** Invariants of the tree walk *)

Section WalkInvariants.

Variable w : world.
Variables (rootdir : string) (book_exceptions file_exceptions : list string).
Variables (verbose force : bool) (ignore_dirs : list string).

Local Abbreviation Visit :=
  (visit w rootdir book_exceptions file_exceptions).
Local Abbreviation Walk :=
  (walk w rootdir book_exceptions file_exceptions ignore_dirs).
Local Abbreviation ScanFile := (scan_file w file_exceptions).
Local Abbreviation OsWalk := (os_walk ignore_dirs).

Ltac keeps_visit :=
  unfold visit, loop_body, register_book, scan_directory, scan_file, scan_node,
    ha_guide_touched, git;
  repeat keeps_step.

Lemma visit_owned_by_books b root files :
  keeps (owned_by_books rootdir) (Visit b root files).
Proof.
  keeps_visit; try done.
  - destruct Hst as (Hr & Ha & Hk). split_and!; simpl.
    + left. apply elem_of_app. right. left.
    + intros b' Hb'. destruct (Ha b' Hb'); [left|by right]. apply elem_of_app. by left.
    + intros k b' Hb'. destruct (Hk k b' Hb'); [left|by right]. apply elem_of_app. by left.
  - destruct Hst as (Hr & Ha & Hk). split_and!; simpl; [done| |done].
    intros b' [Hb'| ->%elem_of_singleton]%elem_of_union; auto.
  - destruct Hst as (Hr & Ha & Hk). split_and!; simpl; [done..|].
    intros k b' [[_ <-]|[_ Hb']]%lookup_insert_Some; eauto.
  - unfold add_edge. by destruct (included_by _ !! _).
  - unfold add_edge. by destruct (included_by _ !! _).
Qed.

Lemma walk_owned_by_books b top t :
  keeps (owned_by_books rootdir) (Walk b top t).
Proof. apply keeps_walk. intros. apply visit_owned_by_books. Qed.

(** *** What the walk leaves alone *)

Ltac frame_modify :=
  try (unfold add_edge; destruct (included_by _ !! _)); simpl; done.

Lemma scan_file_frame d v bs br A root f :
  keeps (fun s => cwd s = d ∧ visited s = v ∧ books s = bs
                  ∧ book_root s = br ∧ affected_books s = A)
        (ScanFile root f).
Proof. keeps_visit; frame_modify. Qed.

Lemma loop_body_frame d v b root files :
  keeps (fun s => cwd s = d ∧ visited s = v) (loop_body w rootdir book_exceptions
                                                 file_exceptions b root files).
Proof. keeps_visit; frame_modify. Qed.

Lemma visit_cwd d b root files :
  keeps (fun s => cwd s = d) (Visit b root files).
Proof. keeps_visit; frame_modify. Qed.

Lemma walk_cwd b top t st : cwd (Walk b top t st).2 = cwd st.
Proof.
  apply (keeps_walk w rootdir book_exceptions file_exceptions ignore_dirs
           (fun s => cwd s = cwd st)); [|done].
  intros. apply visit_cwd.
Qed.

Lemma visit_visited b root files st :
  visited (Visit b root files st).2 = visited st ++ [root].
Proof.
  unfold visit. rewrite bind_unfold. simpl.
  apply (loop_body_frame (cwd st) (visited st ++ [root]) b root files
           (note_visited root st)).
  by split.
Qed.

Lemma parsed_grows x root f :
  keeps (fun s => x ∈ parsed s) (ScanFile root f).
Proof.
  keeps_visit; try frame_modify.
  simpl. apply elem_of_app. by left.
Qed.

(** *** Totality *)

Lemma visit_total b root files : total (Visit b root files).
Proof.
  unfold visit, loop_body, register_book, scan_directory, scan_file, scan_node, ha_guide_touched, git.
  repeat total_step.
Qed.

Lemma walk_total b top t : total (Walk b top t).
Proof. apply total_walk. intros. apply visit_total. Qed.

(** *** Blind spots *)

Local Abbreviation Untouched := (blind_spots_untouched w rootdir ignore_dirs).

Lemma add_edge_untouched d href_abs f_abs st :
  scanned_file w rootdir ignore_dirs d f_abs ->
  Untouched d st -> Untouched d (add_edge href_abs f_abs st).
Proof.
  intros Hf (Hd & Hb & Hk & Hg). unfold add_edge.
  destruct (included_by st !! href_abs) as [s|] eqn:Hs;
    (split_and!; simpl; [done..|]); intros target s' g.
  - intros [[<- <-]|[_ Ht]]%lookup_insert_Some; [|by eapply Hg].
    intros [Hin| ->%elem_of_singleton]%elem_of_union; [by eapply Hg|done].
  - intros [[<- <-]|[_ Ht]]%lookup_insert_Some; [|by eapply Hg].
    by intros ->%elem_of_singleton.
Qed.

Lemma scan_node_untouched d root f_abs href :
  scanned_file w rootdir ignore_dirs d f_abs ->
  keeps (Untouched d) (scan_node root f_abs href).
Proof.
  intros Hf. unfold scan_node. repeat keeps_step. by apply add_edge_untouched.
Qed.

Lemma scan_file_untouched d root files f :
  (root, files) ∈ OsWalk rootdir (listing w) -> f ∈ files ->
  blind_spot rootdir root = false ->
  keeps (Untouched d) (ScanFile root f).
Proof.
  intros Hroot Hf Hblind. unfold scan_file.
  apply keeps_gets_bind. intros st0 (Hd & _).
  assert (scanned_file w rootdir ignore_dirs d
            (PosixPath.abspath (cwd st0) (PosixPath.join root f))) as Hscanned.
  { exists root, files, f. by rewrite Hd. }
  repeat keeps_step; try (by apply scan_node_untouched); try done.
  destruct Hst as (Hd' & Hb & Hk & Hg). split_and!; simpl; [done..| |done].
  intros k [b' [[<- _]|[_ Hb']]%lookup_insert_Some]; [done|]. by apply Hk.
Qed.

Lemma visit_untouched d b root files :
  (root, files) ∈ OsWalk rootdir (listing w) ->
  keeps (Untouched d) (Visit b root files).
Proof.
  intros Hroot. unfold visit, loop_body, register_book, scan_directory.
  destruct (Py.endswith root "doc" || String.eqb root rootdir) eqn:Hblind.
  { repeat keeps_step; done. }
  unfold ha_guide_touched, git.
  repeat keeps_step; try done.
  - destruct Hst as (Hd' & Hb & Hk & Hg). split_and!; simpl; [done| |done..].
    intros b' [Hb'| ->%list_elem_of_singleton]%elem_of_app; [by apply Hb|done].
  - by eapply scan_file_untouched.
Qed.

Lemma walk_untouched d b :
  keeps (Untouched d) (Walk b rootdir (listing w)).
Proof. apply keeps_walk. intros. by apply visit_untouched. Qed.

(** A blind spot is left as it was found, whatever it contains. *)
Lemma visit_blind_spot b root files st :
  blind_spot rootdir root = true ->
  Visit b root files st =
  (Val (if Py.mem (PosixPath.basename root) book_exceptions then Break else Continue),
   note_visited root st).
Proof.
  unfold blind_spot, visit, loop_body, register_book, scan_directory. intros ->.
  rewrite bind_unfold. simpl. by destruct (Py.mem _ _).
Qed.

(** *** The directories visited *)

Lemma visit_excluded b root files st :
  Py.mem (PosixPath.basename root) book_exceptions = true ->
  Visit b root files st = (Val Break, note_visited root st).
Proof.
  unfold visit, loop_body, register_book, scan_directory. intros ->. by rewrite bind_unfold.
Qed.

Lemma walk_excluded b top t st :
  Py.mem (PosixPath.basename top) book_exceptions = true ->
  Walk b top t st = (Val Break, note_visited top st).
Proof.
  intros Hex. destruct t as [entries files].
  by rewrite walk_unfold, bind_unfold, visit_excluded.
Qed.

Lemma visit_break b root files st :
  (Visit b root files st).1 = Val Break ->
  Py.mem (PosixPath.basename root) book_exceptions = true.
Proof.
  unfold visit, loop_body, register_book, scan_directory. rewrite bind_unfold. simpl.
  destruct (Py.mem (PosixPath.basename root) book_exceptions); [done|].
  destruct (Py.endswith root "doc" || String.eqb root rootdir); [done|].
  rewrite bind_unfold. destruct (when _ _ _) as [[[]| |] st1]; [|done..].
  destruct b; [done|].
  rewrite bind_unfold. destruct (when _ _ _) as [[[]| |] st2]; [|done..].
  rewrite bind_unfold. by destruct (for_each _ _ _) as [[[]| |] st3].
Qed.

Lemma walk_visited b t :
  ∀ top st, ∃ pre,
    visited (Walk b top t st).2 = visited st ++ pre
    ∧ pre `prefix_of` (OsWalk top t).*1
    ∧ ((Walk b top t st).1 = Val Continue -> pre = (OsWalk top t).*1)
    ∧ ((Walk b top t st).1 = Val Break ->
       ∃ d, d ∈ (OsWalk top t).*1
            ∧ Py.mem (PosixPath.basename d) book_exceptions = true).
Proof.
  induction t as [entries files IH] using fs_ind. intros top st.
  rewrite walk_unfold, bind_unfold.
  pose proof (visit_visited b top files st) as Hv.
  pose proof (visit_break b top files st) as Hbr.
  destruct (Visit b top files st) as [r st1]. simpl in Hv, Hbr.
  assert (∀ l : list string, [top] `prefix_of` top :: l) as Hpre.
  { intros l. by apply (prefix_app_r [top] [top] l). }
  destruct r as [[|]| |]; simpl.
  2:{ exists [top]. split_and!; [done|apply Hpre|done|].
      intros _. exists top. split; [left|by apply Hbr]. }
  2,3: by (exists [top]; split_and!; [done|apply Hpre|done..]).
  clear Hbr.
  enough (∀ st1, ∃ pre,
    let r := walk_entries (fun name sub => Walk b (PosixPath.join top name) sub)
               (prune_dirs ignore_dirs (map fst entries)) entries st1 in
    let all := os_walk_entries (fun name sub => OsWalk (PosixPath.join top name) sub)
                 (prune_dirs ignore_dirs (map fst entries)) entries in
    visited r.2 = visited st1 ++ pre
    ∧ pre `prefix_of` all.*1
    ∧ (r.1 = Val Continue -> pre = all.*1)
    ∧ (r.1 = Val Break ->
       ∃ d, d ∈ all.*1 ∧ Py.mem (PosixPath.basename d) book_exceptions = true))
    as Hentries.
  { destruct (Hentries st1) as (pre & H1 & H2 & H3 & H4). exists (top :: pre).
    split_and!.
    - rewrite H1, Hv. by rewrite <-app_assoc.
    - by apply prefix_cons.
    - intros Hc. by rewrite (H3 Hc).
    - intros Hb. destruct (H4 Hb) as (d & ? & ?). exists d. split; [by right|done]. }
  clear Hv st1 Hpre. generalize (prune_dirs ignore_dirs (map fst entries)). intros dirs.
  induction IH as [|[name sub] rest Hsub _ IHrest]; intros st1; simpl.
  { exists []. by rewrite app_nil_r. }
  destruct (Py.mem name dirs); [|by simpl].
  rewrite bind_unfold, fmap_app.
  destruct (Hsub (PosixPath.join top name) st1) as (pre1 & H1 & H2 & H3 & H4).
  simpl in *.
  destruct (Walk b (PosixPath.join top name) sub st1) as [[[|]| |] st2]; simpl in *.
  - destruct (IHrest st2) as (pre2 & G1 & G2 & G3 & G4).
    rewrite (H3 eq_refl) in *. eexists (_ ++ pre2). split_and!.
    + by rewrite G1, H1, <-app_assoc.
    + by apply prefix_app.
    + intros Hc. by rewrite (G3 Hc).
    + intros Hb. destruct (G4 Hb) as (d & ? & ?). exists d.
      split; [|done]. apply elem_of_app. by right.
  - exists pre1. split_and!; [done|by apply prefix_app_r|done|].
    intros _. destruct (H4 eq_refl) as (d & ? & ?). exists d.
    split; [|done]. apply elem_of_app. by left.
  - exists pre1. split_and!; [done|by apply prefix_app_r|done..].
  - exists pre1. split_and!; [done|by apply prefix_app_r|done..].
Qed.

(** *** The books discovered *)

Local Abbreviation BooksOf := (books_until_excluded w rootdir book_exceptions).
Local Abbreviation HasExcluded := (has_excluded book_exceptions).

Lemma books_until_excluded_app l1 l2 :
  BooksOf (l1 ++ l2)
  = BooksOf l1 ++ (if HasExcluded l1 then [] else BooksOf l2).
Proof.
  induction l1 as [|[root files] l1 IH]; simpl; [done|].
  destruct (Py.mem (PosixPath.basename root) book_exceptions); simpl; [done|].
  by rewrite IH, app_assoc.
Qed.

Lemma books_until_excluded_elem l b :
  b ∈ BooksOf l ->
  ∃ files, (b, files) ∈ l ∧ records_book w rootdir b files = true.
Proof.
  induction l as [|[root files] l IH]; simpl; [by intros ?%elem_of_nil|].
  destruct (Py.mem (PosixPath.basename root) book_exceptions);
    [by intros ?%elem_of_nil|].
  intros [Hb|Hb]%elem_of_app.
  - destruct (records_book w rootdir root files) eqn:Hrec;
      [|by apply elem_of_nil in Hb].
    apply list_elem_of_singleton in Hb as ->. exists files. split; [left|done].
  - destruct (IH Hb) as (files' & ? & ?). exists files'. split; [by right|done].
Qed.

Lemma has_excluded_app l1 l2 :
  HasExcluded (l1 ++ l2) = HasExcluded l1 || HasExcluded l2.
Proof. apply existsb_app. Qed.

Lemma scan_directory_books v root files :
  keeps (fun s => books s = v) (scan_directory w file_exceptions root files).
Proof. keeps_visit; frame_modify. Qed.

Lemma visit_books b root files st :
  books (Visit b root files st).2
  = books st ++ (if Py.mem (PosixPath.basename root) book_exceptions then []
                 else if records_book w rootdir root files then [root] else []).
Proof.
  unfold visit, loop_body, records_book, blind_spot. rewrite bind_unfold. simpl.
  destruct (Py.mem (PosixPath.basename root) book_exceptions); simpl.
  { by rewrite app_nil_r. }
  destruct (Py.endswith root "doc" || String.eqb root rootdir); simpl.
  { by rewrite app_nil_r. }
  rewrite bind_unfold. unfold register_book.
  destruct (Py.mem "pom.xml" files); simpl.
  - destruct (negb (truthy (only_book w)) || _); simpl.
    + destruct b; [done|].
      by apply (scan_directory_books (books st ++ [root]) root files
                  (new_book root (note_visited root st))).
    + rewrite app_nil_r. destruct b; simpl; [done|].
      by apply (scan_directory_books (books st) root files (note_visited root st)).
  - rewrite app_nil_r. destruct b; simpl; [done|].
    by apply (scan_directory_books (books st) root files (note_visited root st)).
Qed.

Lemma visit_flow b root files st fl :
  (Visit b root files st).1 = Val fl ->
  fl = if Py.mem (PosixPath.basename root) book_exceptions then Break else Continue.
Proof.
  intros Hfl. destruct (Py.mem (PosixPath.basename root) book_exceptions) eqn:Hex.
  - rewrite visit_excluded in Hfl by done. by injection Hfl as <-.
  - destruct fl; [done|]. apply visit_break in Hfl. congruence.
Qed.

Lemma walk_books b t :
  ∀ top st, ∃ pre,
    books (Walk b top t st).2 = books st ++ pre
    ∧ pre `prefix_of` BooksOf (OsWalk top t)
    ∧ ∀ fl, (Walk b top t st).1 = Val fl ->
            pre = BooksOf (OsWalk top t)
            ∧ fl = if HasExcluded (OsWalk top t) then Break else Continue.
Proof.
  induction t as [entries files IH] using fs_ind. intros top st.
  rewrite walk_unfold, bind_unfold.
  pose proof (visit_books b top files st) as Hbooks.
  pose proof (visit_flow b top files st) as Hflow.
  destruct (Visit b top files st) as [r st1]. simpl in Hbooks, Hflow. simpl.
  destruct (Py.mem (PosixPath.basename top) book_exceptions) eqn:Hex.
  { rewrite app_nil_r in Hbooks. exists [].
    destruct r as [fl| |]; simpl;
      [rewrite (Hflow fl eq_refl); simpl|..];
      (split_and!; [by rewrite app_nil_r|done|]); [|done..].
    by intros fl' [= <-]. }
  set (own := if records_book w rootdir top files then [top] else []) in *.
  destruct r as [fl| |]; simpl.
  2,3: by (exists own; split_and!; [done|by apply prefix_app_r|done]).
  rewrite (Hflow fl eq_refl). clear Hflow fl.
  enough (∀ st1, ∃ pre,
    let r := walk_entries (fun name sub => Walk b (PosixPath.join top name) sub)
               (prune_dirs ignore_dirs (map fst entries)) entries st1 in
    let all := os_walk_entries (fun name sub => OsWalk (PosixPath.join top name) sub)
                 (prune_dirs ignore_dirs (map fst entries)) entries in
    books r.2 = books st1 ++ pre
    ∧ pre `prefix_of` BooksOf all
    ∧ ∀ fl, r.1 = Val fl ->
            pre = BooksOf all ∧ fl = if HasExcluded all then Break else Continue)
    as Hentries.
  { destruct (Hentries st1) as (pre & H1 & H2 & H3). exists (own ++ pre).
    split_and!.
    - by rewrite H1, Hbooks, <-app_assoc.
    - by apply prefix_app.
    - intros fl Hfl. destruct (H3 fl Hfl) as [-> ->]. done. }
  clear Hbooks st1. generalize (prune_dirs ignore_dirs (map fst entries)). intros dirs.
  induction IH as [|[name sub] rest Hsub _ IHrest]; intros st1; simpl.
  { exists []. split_and!; [by rewrite app_nil_r|done|]. by intros fl [= <-]. }
  destruct (Py.mem name dirs); [|by simpl].
  rewrite bind_unfold, books_until_excluded_app, has_excluded_app.
  destruct (Hsub (PosixPath.join top name) st1) as (pre1 & H1 & H2 & H3).
  simpl in *.
  destruct (Walk b (PosixPath.join top name) sub st1) as [[fl1| |] st2]; simpl in *.
  - destruct (H3 fl1 eq_refl) as [-> ->].
    destruct (HasExcluded (OsWalk (PosixPath.join top name) sub)); simpl.
    + exists (BooksOf (OsWalk (PosixPath.join top name) sub)).
      rewrite app_nil_r. split_and!; [done..|]. by intros fl [= <-].
    + destruct (IHrest st2) as (pre2 & G1 & G2 & G3). eexists (_ ++ pre2).
      split_and!.
      * by rewrite G1, H1, <-app_assoc.
      * by apply prefix_app.
      * intros fl Hfl. destruct (G3 fl Hfl) as [-> ->]. done.
  - exists pre1. split_and!; [done|by apply prefix_app_r|done].
  - exists pre1. split_and!; [done|by apply prefix_app_r|done].
Qed.

End WalkInvariants.

(** ** The walk when all books are built *)

Section BuildAll.

Variables w w' : world.
Variables (rootdir : string) (book_exceptions file_exceptions : list string).
Variables (ignore_dirs : list string).

Hypothesis same_only_book : only_book w' = only_book w.

Lemma only_books_change_trans st1 st2 st3 :
  only_books_change st1 st2 -> only_books_change st2 st3 ->
  only_books_change st1 st3.
Proof.
  unfold only_books_change. intros (?&?&?&?&?&?) (?&?&?&?&?&?).
  split_and!; congruence.
Qed.

Lemma visit_build_all root files st :
  ∃ fl st',
    visit w rootdir book_exceptions file_exceptions true root files st = (Val fl, st')
    ∧ only_books_change st st'
    ∧ visit w' rootdir book_exceptions file_exceptions true root files st
      = (Val fl, st').
Proof.
  unfold visit, loop_body, register_book, scan_directory. rewrite !bind_unfold, same_only_book. simpl.
  destruct (Py.mem (PosixPath.basename root) book_exceptions).
  { by eexists _, _. }
  destruct (Py.endswith root "doc" || String.eqb root rootdir).
  { by eexists _, _. }
  rewrite !bind_unfold.
  destruct (Py.mem "pom.xml" files); simpl; [|by eexists _, _].
  destruct (negb (truthy (only_book w)) || _); simpl; by eexists _, _.
Qed.

Lemma walk_build_all t :
  ∀ top st, ∃ fl st',
    walk w rootdir book_exceptions file_exceptions ignore_dirs true top t st
    = (Val fl, st')
    ∧ only_books_change st st'
    ∧ walk w' rootdir book_exceptions file_exceptions ignore_dirs true top t st
      = (Val fl, st').
Proof.
  induction t as [entries files IH] using fs_ind. intros top st.
  rewrite !walk_unfold, !bind_unfold.
  destruct (visit_build_all top files st) as (fl & st1 & -> & Hch & ->).
  destruct fl; [|by eexists _, _].
  generalize (prune_dirs ignore_dirs (map fst entries)). intros dirs.
  revert st1 Hch. induction IH as [|[name sub] rest Hsub _ IHrest]; intros st1 Hch; simpl.
  { by eexists _, _. }
  destruct (Py.mem name dirs); [|by apply IHrest].
  rewrite !bind_unfold. simpl in Hsub.
  destruct (Hsub (PosixPath.join top name) st1) as (fl & st2 & -> & Hch2 & ->).
  assert (only_books_change st st2) as Hch' by by eapply only_books_change_trans.
  destruct fl; [by apply IHrest|by eexists _, _].
Qed.

End BuildAll.

(** ** A file that is not XML *)

Section ParseFailure.

Variable w : world.
Variables (rootdir : string) (book_exceptions file_exceptions : list string).
Variables (verbose force : bool) (ignore_dirs : list string).
Variables (p e : string).

Hypothesis not_xml : etree_parse w p = XMLSyntaxError e.

Local Abbreviation w' := (with_empty_document p w).

Ltac same_solve :=
  let st := fresh "st" in let st' := fresh "st'" in
  intros st st' (?&?&?&?&?&?&?&?);
  unfold same_but_stdout, add_edge;
  try replace (included_by st) with (included_by st');
  try destruct (included_by st' !! _);
  simpl; split_and?; congruence.

Ltac alike_step :=
  lazymatch goal with
  | |- alike (_ ≫= _) (_ ≫= _) => apply alike_bind; [|intros ?]
  | |- alike (ret _) (ret _) => apply alike_ret
  | |- alike (raise _) (raise _) => apply alike_raise
  | |- alike (gets _) (gets _) => apply alike_gets; same_solve
  | |- alike (modify _) (modify _) => apply alike_modify; same_solve
  | |- alike (when _ _) (when _ _) => apply alike_when
  | |- alike (for_each _ _) (for_each _ _) => apply alike_for_each; intros ?
  | |- alike (if ?c then _ else _) (if ?c then _ else _) => destruct c
  | |- alike (match ?x with _ => _ end) (match ?x with _ => _ end) => destruct x
  end.

Lemma alike_scan_node root f_abs href :
  alike (scan_node root f_abs href) (scan_node root f_abs href).
Proof. unfold scan_node. repeat alike_step. Qed.

Lemma alike_scan_file root f :
  alike (scan_file w file_exceptions root f) (scan_file w' file_exceptions root f).
Proof.
  unfold scan_file. apply alike_bind; [apply alike_gets; same_solve|]. intros d.
  repeat alike_step. simpl.
  destruct (String.eqb_spec (PosixPath.abspath d (PosixPath.join root f)) p)
    as [->|_].
  - rewrite not_xml. intros st st' Hst. split; [done|].
    destruct Hst as (?&?&?&?&?&?&?&?). by split_and!.
  - repeat alike_step; apply alike_scan_node.
Qed.

Lemma alike_visit b root files :
  alike (visit w rootdir book_exceptions file_exceptions b root files)
        (visit w' rootdir book_exceptions file_exceptions b root files).
Proof.
  unfold visit, loop_body, register_book, scan_directory, ha_guide_touched, git. simpl.
  repeat alike_step; apply alike_scan_file.
Qed.

Lemma alike_walk b t :
  ∀ top,
    alike (walk w rootdir book_exceptions file_exceptions ignore_dirs b top t)
          (walk w' rootdir book_exceptions file_exceptions ignore_dirs b top t).
Proof.
  induction t as [entries files IH] using fs_ind. intros top.
  rewrite !walk_unfold. apply alike_bind; [apply alike_visit|].
  intros [|]; [|apply alike_ret].
  generalize (prune_dirs ignore_dirs (map fst entries)). intros dirs.
  induction IH as [|[name sub] rest Hsub _ IHrest]; simpl in *.
  - apply alike_ret.
  - destruct (Py.mem name dirs); [|done].
    apply alike_bind; [apply Hsub|].
    intros [|]; [done|apply alike_ret].
Qed.

Lemma alike_scan :
  alike (scan w rootdir book_exceptions file_exceptions verbose force ignore_dirs)
        (scan w' rootdir book_exceptions file_exceptions verbose force ignore_dirs).
Proof.
  unfold scan, build_all_books_flag, check_modified_affects_all, chdir, git. simpl.
  assert (∀ l, alike (first_special verbose l) (first_special verbose l)) as Hfs.
  { induction l as [|f l IH]; simpl; repeat alike_step; done. }
  repeat alike_step; try apply alike_walk; done.
Qed.

Lemma alike_find_affected_books :
  alike (find_affected_books w rootdir book_exceptions file_exceptions verbose
           force ignore_dirs)
        (find_affected_books w' rootdir book_exceptions file_exceptions verbose
           force ignore_dirs).
Proof.
  unfold find_affected_books. apply alike_bind; [apply alike_scan|]. intros b.
  apply alike_bind.
  { apply alike_when. unfold close_modified, get_modified_files, chdir, git. simpl.
    repeat alike_step.
    intros st st' Hst. by split. }
  intros _. simpl. repeat alike_step.
Qed.

Lemma scan_file_not_xml root f st :
  parsed_name file_exceptions f = true ->
  PosixPath.abspath (cwd st) (PosixPath.join root f) = p ->
  ∃ st1,
    scan_file w file_exceptions root f st
    = (Val tt, print ("  Warning: file " +:+ p +:+ " is invalid XML: " +:+ e) st1)
    ∧ included_by st1 = included_by st.
Proof.
  unfold parsed_name, scan_file. intros -> Hp.
  repeat (rewrite bind_unfold; simpl). rewrite Hp, not_xml.
  destruct (is_book_master _); simpl; by eexists.
Qed.

(** C9. When [etree.parse] raises [XMLSyntaxError] for the file [p]:
    scanning [p] prints a warning that names [p], records no edge and
    goes on normally; and the whole scan, and the whole of
    [find_affected_books], end as they do in the world where [p] is an
    empty document instead, with the same books, the same
    [included_by] and [book_bk], and the same result, what has been
    printed apart. *)
Theorem parse_failure_is_not_fatal :
  (∀ root f st,
     parsed_name file_exceptions f = true ->
     PosixPath.abspath (cwd st) (PosixPath.join root f) = p ->
     ∃ st1,
       scan_file w file_exceptions root f st
       = (Val tt, print ("  Warning: file " +:+ p +:+ " is invalid XML: " +:+ e) st1)
       ∧ included_by st1 = included_by st)
  ∧ (scan w rootdir book_exceptions file_exceptions verbose force ignore_dirs
       (initial w rootdir)).1
    = (scan w' rootdir book_exceptions file_exceptions verbose force ignore_dirs
         (initial w' rootdir)).1
  ∧ same_but_stdout
      (scan w rootdir book_exceptions file_exceptions verbose force ignore_dirs
         (initial w rootdir)).2
      (scan w' rootdir book_exceptions file_exceptions verbose force ignore_dirs
         (initial w' rootdir)).2
  ∧ (run_find_affected_books w rootdir book_exceptions file_exceptions verbose
       force ignore_dirs).1
    = (run_find_affected_books w' rootdir book_exceptions file_exceptions verbose
         force ignore_dirs).1.
Proof.
  split; [apply scan_file_not_xml|].
  pose proof (alike_scan (initial w rootdir) (initial w' rootdir)
                (same_but_stdout_refl _)) as [Hr Hs].
  split_and!; [done..|].
  apply (alike_find_affected_books (initial w rootdir) (initial w' rootdir)
           (same_but_stdout_refl _)).
Qed.

End ParseFailure.

(** ** The claims about the tree walk *)

Section WalkClaims.

Variable w : world.
Variables (rootdir : string) (book_exceptions file_exceptions : list string).
Variables (verbose force : bool) (ignore_dirs : list string).

Local Abbreviation Visit :=
  (visit w rootdir book_exceptions file_exceptions).
Local Abbreviation Walk :=
  (walk w rootdir book_exceptions file_exceptions ignore_dirs).
Local Abbreviation ScanFile := (scan_file w file_exceptions).
Local Abbreviation OsWalk := (os_walk ignore_dirs).
Local Abbreviation Scan :=
  (scan w rootdir book_exceptions file_exceptions verbose force ignore_dirs).

Lemma parse_keeps_parsed (x f_abs : string) root :
  keeps (fun s => x ∈ parsed s)
    (match etree_parse w f_abs with
     | XMLSyntaxError e =>
         modify (print ("  Warning: file " +:+ f_abs +:+ " is invalid XML: " +:+ e))
     | Document imagedata xi_include =>
         for_each imagedata (scan_node root f_abs);;
         for_each xi_include (scan_node root f_abs)
     end).
Proof.
  unfold scan_node. repeat keeps_step; try done.
  all: unfold add_edge; by destruct (included_by _ !! _).
Qed.

Lemma flag_fresh_locals :
  keeps (fresh_locals rootdir) (build_all_books_flag w rootdir verbose force).
Proof.
  unfold build_all_books_flag, check_modified_affects_all, chdir, git.
  assert (∀ l, keeps (fresh_locals rootdir) (first_special verbose l)) as Hfs.
  { induction l as [|f l IH]; simpl; repeat keeps_step; done. }
  repeat keeps_step; done.
Qed.

Lemma initial_fresh_locals : fresh_locals rootdir (initial w rootdir).
Proof. by repeat split. Qed.

(** The scan is the flag, then the walk from a state whose locals are
    still fresh. *)
Lemma scan_inv :
  (∃ b st0, build_all_books_flag w rootdir verbose force (initial w rootdir)
            = (Val b, st0)
            ∧ fresh_locals rootdir st0
            ∧ (Scan (initial w rootdir)).2 = (Walk b rootdir (listing w) st0).2
            ∧ (Scan (initial w rootdir)).1
              = match (Walk b rootdir (listing w) st0).1 with
                | Val _ => Val b
                | Exc e => Exc e
                | OutOfFuel => OutOfFuel
                end)
  ∨ (fresh_locals rootdir (Scan (initial w rootdir)).2
     ∧ ∀ b', (Scan (initial w rootdir)).1 ≠ Val b').
Proof.
  pose proof (flag_fresh_locals _ initial_fresh_locals) as Hfresh.
  unfold scan. rewrite bind_unfold.
  destruct (build_all_books_flag _ _ _ _ _) as [[b| |] st0]; simpl in *.
  - left. exists b, st0. split_and!; [done..| |]; rewrite bind_unfold;
      by destruct (Walk b rootdir (listing w) st0) as [[fl| |] st1].
  - by right.
  - by right.
Qed.

(** The books discovered are those of the directories that [os.walk]
    yields, up to the first excluded book; all of them when the scan
    ends normally. *)
Lemma scan_books :
  discovered_books w rootdir book_exceptions file_exceptions verbose force
    ignore_dirs
  `prefix_of` books_until_excluded w rootdir book_exceptions
                (OsWalk rootdir (listing w))
  ∧ ∀ b, (Scan (initial w rootdir)).1 = Val b ->
         discovered_books w rootdir book_exceptions file_exceptions verbose force
           ignore_dirs
         = books_until_excluded w rootdir book_exceptions
             (OsWalk rootdir (listing w)).
Proof.
  unfold discovered_books.
  destruct scan_inv as [(b & st0 & _ & Hfresh & -> & ->)|[Hfresh Hnever]].
  - destruct (walk_books w rootdir book_exceptions file_exceptions ignore_dirs
                b (listing w) rootdir st0) as (pre & -> & Hpre & Hall).
    destruct Hfresh as (-> & _). simpl. split; [done|].
    intros b'. destruct (Walk b rootdir (listing w) st0).1 as [fl| |]; [|done..].
    intros _. by destruct (Hall fl eq_refl) as [-> _].
  - destruct Hfresh as (-> & _). split; [apply prefix_nil|].
    intros b Hb. by destruct (Hnever b).
Qed.

Lemma fresh_untouched st : fresh_locals rootdir st ->
  blind_spots_untouched w rootdir ignore_dirs (cwd st) st.
Proof.
  intros (Hb & _ & _ & Hi & Hk & _). unfold blind_spots_untouched.
  rewrite Hb, Hi, Hk. split_and!; [done|..].
  - by intros b ?%elem_of_nil.
  - intros k [x Hx]. by rewrite lookup_empty in Hx.
  - intros target s g Hs. by rewrite lookup_empty in Hs.
Qed.

Lemma scan_untouched :
  blind_spots_untouched w rootdir ignore_dirs
    (cwd (Scan (initial w rootdir)).2) (Scan (initial w rootdir)).2.
Proof.
  destruct scan_inv as [(b & st0 & _ & Hfresh & -> & _)|[Hfresh _]].
  - pose proof (walk_untouched w rootdir book_exceptions file_exceptions
                  ignore_dirs (cwd st0) b st0 (fresh_untouched _ Hfresh)) as H.
    by rewrite walk_cwd.
  - by apply fresh_untouched.
Qed.

(** C10. A directory whose path ends with [doc], and [rootdir] itself,
    is a blind spot of the walk: visiting it changes no variable of
    the program, whatever files it holds (no book, no master file, no
    parsed file, no edge), and the walk goes on into its
    sub-directories as it does from any directory, that is, unless the
    base name of the directory is an excluded book, which ends the
    walk.  So, at the end of the scan, no book is a blind spot, and
    every master file recorded in [book_bk] and every includer
    recorded in [included_by] is a file listed in a directory that is
    not one. *)
Theorem blind_spots_are_left_alone :
  (∀ b root files st,
     blind_spot rootdir root = true ->
     Visit b root files st
     = (Val (if Py.mem (PosixPath.basename root) book_exceptions
             then Break else Continue),
        note_visited root st))
  ∧ (∀ b root entries files st,
       blind_spot rootdir root = true ->
       Walk b root (Dir entries files) st
       = if Py.mem (PosixPath.basename root) book_exceptions
         then (Val Break, note_visited root st)
         else walk_entries (fun name sub => Walk b (PosixPath.join root name) sub)
                (prune_dirs ignore_dirs (map fst entries)) entries
                (note_visited root st))
  ∧ (∀ book, book ∈ books (Scan (initial w rootdir)).2 ->
       blind_spot rootdir book = false)
  ∧ (∀ k, is_Some (book_bk (Scan (initial w rootdir)).2 !! k) ->
       scanned_file w rootdir ignore_dirs (cwd (Scan (initial w rootdir)).2) k)
  ∧ (∀ target includers_t g,
       included_by (Scan (initial w rootdir)).2 !! target = Some includers_t ->
       g ∈ includers_t ->
       scanned_file w rootdir ignore_dirs (cwd (Scan (initial w rootdir)).2) g).
Proof.
  split; [apply visit_blind_spot|]. split.
  - intros b root entries files st Hblind.
    rewrite walk_unfold, bind_unfold, visit_blind_spot by done.
    by destruct (Py.mem _ _).
  - destruct scan_untouched as (_ & Hb & Hk & Hg). by split_and!.
Qed.

(** *** The directories visited *)

Lemma scan_visited :
  visited (Scan (initial w rootdir)).2 `prefix_of` (OsWalk rootdir (listing w)).*1.
Proof.
  destruct scan_inv as [(b & st0 & _ & Hfresh & -> & _)|[Hfresh _]].
  - destruct (walk_visited w rootdir book_exceptions file_exceptions ignore_dirs
                b (listing w) rootdir st0) as (pre & -> & Hpre & _).
    destruct Hfresh as (_ & _ & _ & _ & _ & -> & _). done.
  - destruct Hfresh as (_ & _ & _ & _ & _ & -> & _). apply prefix_nil.
Qed.

(** C5, as the code has it.  The walk visits, top down and in listing
    order, directories reachable from the root through directories that
    are neither named [target], nor hidden, nor in the ignore set, and
    no others; when none of these directories has the base name of an
    excluded book and the walk ends without an exception, it has
    visited them all; and the walk of a tree whose own root has the base
    name of an excluded book visits that root only. *)
Theorem walk_visits_unpruned_directories :
  visited (Scan (initial w rootdir)).2 `prefix_of` (OsWalk rootdir (listing w)).*1
  ∧ (∀ b top t st, ∃ pre,
       visited (Walk b top t st).2 = visited st ++ pre
       ∧ pre `prefix_of` (OsWalk top t).*1)
  ∧ (∀ b top t st fl,
       (∀ d, d ∈ (OsWalk top t).*1 ->
             Py.mem (PosixPath.basename d) book_exceptions = false) ->
       (Walk b top t st).1 = Val fl ->
       visited (Walk b top t st).2 = visited st ++ (OsWalk top t).*1)
  ∧ (∀ b top t st,
       Py.mem (PosixPath.basename top) book_exceptions = true ->
       visited (Walk b top t st).2 = visited st ++ [top]).
Proof.
  split; [apply scan_visited|]. split_and!.
  - intros b top t st.
    destruct (walk_visited w rootdir book_exceptions file_exceptions ignore_dirs
                b t top st) as (pre & ? & ? & _). by exists pre.
  - intros b top t st fl Hnone Hfl.
    destruct (walk_visited w rootdir book_exceptions file_exceptions ignore_dirs
                b t top st) as (pre & -> & _ & Hc & Hb).
    rewrite Hfl in Hc, Hb. destruct fl.
    + by rewrite Hc.
    + destruct (Hb eq_refl) as (d & Hd & Hex). by rewrite (Hnone d Hd) in Hex.
  - intros b top t st Hex. by rewrite walk_excluded.
Qed.

(** *** The high-availability guide *)

Lemma foldl_ha_changed l acc :
  foldl (fun ha_changed f =>
           if Py.startswith f "doc/high-availability-guide/"
           then true else ha_changed) acc l = true
  ↔ acc = true ∨ ha_touched l.
Proof.
  revert acc. induction l as [|f l IH]; intros acc; simpl.
  - split; [by left|]. intros [?|(f & ?%elem_of_nil & _)]; done.
  - rewrite IH. unfold ha_touched.
    destruct (Py.startswith f "doc/high-availability-guide/") eqn:Hf.
    + split; [|by left]. intros _. right. exists f. split; [left|done].
    + split.
      * intros [?|(g & ? & ?)]; [by left|]. right. exists g. split; [by right|done].
      * intros [?|(g & [->|?]%elem_of_cons & Hg)]; [by left|congruence|].
        right. by exists g.
Qed.

Lemma scan_file_parses root f st :
  parsed_name file_exceptions f = true ->
  PosixPath.abspath (cwd st) (PosixPath.join root f) ∈ parsed (ScanFile root f st).2.
Proof.
  unfold parsed_name, scan_file. intros ->.
  rewrite bind_unfold. simpl. rewrite bind_unfold.
  set (f_abs := PosixPath.abspath (cwd st) (PosixPath.join root f)).
  assert (∀ st1, f_abs ∈ parsed (note_parsed f_abs st1)) as Hin.
  { intros st1. simpl. apply elem_of_app. right. left. }
  assert (∀ st1, f_abs ∈ parsed st1 ->
    f_abs ∈ parsed ((match etree_parse w f_abs with
      | XMLSyntaxError e =>
          modify (print ("  Warning: file " +:+ f_abs +:+ " is invalid XML: " +:+ e))
      | Document imagedata xi_include =>
          for_each imagedata (scan_node root f_abs);;
          for_each xi_include (scan_node root f_abs)
      end) st1).2) as Hkeep.
  { intros st1. apply (parse_keeps_parsed f_abs f_abs root). }
  destruct (is_book_master _); simpl; rewrite bind_unfold; simpl; apply Hkeep, Hin.
Qed.

Lemma for_each_scan_file_frame d v bs br A root files :
  keeps (fun s => cwd s = d ∧ visited s = v ∧ books s = bs
                  ∧ book_root s = br ∧ affected_books s = A)
        (for_each files (ScanFile root)).
Proof. apply keeps_for_each. intros f _. apply scan_file_frame. Qed.

Lemma for_each_scan_file_parsed root files :
  ∀ st st',
    for_each files (ScanFile root) st = (Val tt, st') ->
    ∀ f, f ∈ files -> parsed_name file_exceptions f = true ->
         PosixPath.abspath (cwd st) (PosixPath.join root f) ∈ parsed st'.
Proof.
  induction files as [|f0 files IH]; intros st st' Hrun f Hf Hname.
  { by apply elem_of_nil in Hf. }
  simpl in Hrun. apply bind_inv_val in Hrun as ([] & st1 & Hf0 & Hrest).
  assert (cwd st1 = cwd st) as Hcwd.
  { pose proof (scan_file_frame w file_exceptions (cwd st) (visited st) (books st)
                  (book_root st) (affected_books st) root f0 st) as H.
    rewrite Hf0 in H. by apply H. }
  apply elem_of_cons in Hf as [->|Hf].
  - pose proof (scan_file_parses root f0 st Hname) as Hin. rewrite Hf0 in Hin.
    pose proof (keeps_for_each
                  (fun s => PosixPath.abspath (cwd st) (PosixPath.join root f0)
                            ∈ parsed s)
                  files (ScanFile root)) as Hkeep.
    replace st' with (for_each files (ScanFile root) st1).2 by (by rewrite Hrest).
    apply Hkeep; [|done].
    intros x _. apply parsed_grows.
  - rewrite <-Hcwd. by eapply IH.
Qed.

(** C6, as the code has it.  In a directory whose path ends with
    [doc/high-availability-guide], that the walk does not skip, and when
    not all books are built: the current book root is added to
    [affected_books] exactly when some token printed by [git diff
    --name-only] starts with [doc/high-availability-guide/], and the
    files of the directory are scanned like those of any other
    directory (when the visit ends normally, every one whose name
    makes it a file to parse has been given to the parser). *)
Theorem ha_guide_is_checked_and_scanned root files st modified_files :
  Py.endswith root "doc/high-availability-guide" = true ->
  Py.mem (PosixPath.basename root) book_exceptions = false ->
  blind_spot rootdir root = false ->
  git_diff_name_only w = inr modified_files ->
  (ha_touched modified_files ->
   affected_books (Visit false root files st).2
   = affected_books st ∪ {[book_root (Visit false root files st).2]})
  ∧ (¬ ha_touched modified_files ->
     affected_books (Visit false root files st).2 = affected_books st)
  ∧ ((Visit false root files st).1 = Val Continue ->
     ∀ f, f ∈ files -> parsed_name file_exceptions f = true ->
          PosixPath.abspath (cwd st) (PosixPath.join root f)
          ∈ parsed (Visit false root files st).2).
Proof.
  intros Hha Hex Hblind Hgit. unfold blind_spot in Hblind.
  unfold visit, loop_body, register_book, scan_directory. rewrite bind_unfold. simpl. rewrite Hex, Hblind, Hha.
  rewrite bind_unfold.
  (* the book of the directory, if it has a [pom.xml] *)
  set (register := when (Py.mem "pom.xml" files) _).
  assert (∃ st1, register (note_visited root st) = (Val tt, st1)
                 ∧ cwd st1 = cwd st
                 ∧ affected_books st1 = affected_books st) as (st1 & -> & Hc1 & Ha1).
  { subst register. destruct (Py.mem "pom.xml" files); simpl; [|by eexists].
    destruct (negb _ || _); simpl; by eexists. }
  rewrite bind_unfold.
  (* the check of the guide *)
  unfold when at 1, ha_guide_touched, git. rewrite Hgit.
  repeat (rewrite bind_unfold; simpl).
  pose proof (foldl_ha_changed modified_files false) as Htouched.
  destruct (foldl _ false modified_files); simpl.
  - assert (ha_touched modified_files) as Hyes.
    { destruct Htouched as [H _]. by destruct (H eq_refl). }
    set (st2 := set_affected_books _ st1).
    pose proof (for_each_scan_file_frame (cwd st2) (visited st2) (books st2)
                  (book_root st2) (affected_books st2) root files st2
                  ltac:(done)) as (_ & _ & _ & Hbr & Hab).
    pose proof (for_each_scan_file_parsed root files st2) as Hparsed.
    rewrite bind_unfold.
    destruct (for_each files (ScanFile root) st2) as [[[]| |] st3]; simpl in *;
      (split_and!; [intros _; by rewrite Hab, Hbr, Ha1|done|]); try done.
    intros _ f Hf Hname. rewrite <-Hc1. by eapply Hparsed.
  - assert (¬ ha_touched modified_files) as Hno.
    { intros H. destruct Htouched as [_ Hr]. by specialize (Hr (or_intror H)). }
    pose proof (for_each_scan_file_frame (cwd st1) (visited st1) (books st1)
                  (book_root st1) (affected_books st1) root files st1
                  ltac:(done)) as (_ & _ & _ & Hbr & Hab).
    pose proof (for_each_scan_file_parsed root files st1) as Hparsed.
    rewrite bind_unfold.
    destruct (for_each files (ScanFile root) st1) as [[[]| |] st3]; simpl in *;
      (split_and!; [done|intros _; by rewrite Hab, Ha1|]); try done.
    intros _ f Hf Hname. rewrite <-Hc1. by eapply Hparsed.
Qed.

End WalkClaims.

(** ** Build everything *)

Section BuildEverything.

Variables (rootdir : string) (book_exceptions file_exceptions : list string).
Variables (verbose force : bool) (ignore_dirs : list string).

Local Abbreviation Run w :=
  (run_find_affected_books w rootdir book_exceptions file_exceptions
     verbose force ignore_dirs).
Local Abbreviation Scan w :=
  (scan w rootdir book_exceptions file_exceptions verbose force ignore_dirs).

Lemma first_special_true st modified_files f :
  f ∈ modified_files -> f ∈ special_files ->
  ∃ out, first_special verbose modified_files st
         = (Val true, {| cwd := cwd st; stdout := out; books := books st;
                         book_root := book_root st;
                         affected_books := affected_books st;
                         included_by := included_by st; book_bk := book_bk st;
                         visited := visited st; parsed := parsed st |}).
Proof.
  intros Hf Hs. induction Hf as [f l|f g l _ IH]; simpl.
  - unfold Py.mem. rewrite bool_decide_eq_true_2 by done.
    destruct verbose; simpl.
    + by eexists.
    + exists (stdout st). by destruct st.
  - destruct (Py.mem g special_files); [|by apply IH].
    destruct verbose; simpl.
    + by eexists.
    + exists (stdout st). by destruct st.
Qed.

Lemma flag_build_everything w :
  build_everything w force ->
  ∃ d out,
    build_all_books_flag w rootdir verbose force (initial w rootdir)
    = (Val true, {| cwd := d; stdout := out; books := []; book_root := rootdir;
                    affected_books := ∅; included_by := ∅; book_bk := ∅;
                    visited := []; parsed := [] |}).
Proof.
  unfold build_all_books_flag. destruct force; [by eexists _, _|].
  intros [|(l & f & Hgit & Hf & Hs)]; [done|].
  unfold check_modified_affects_all, git. rewrite Hgit.
  repeat (rewrite bind_unfold; simpl).
  edestruct first_special_true as (out & ->); [done..|]. by eexists _, _.
Qed.

Lemma scan_build_everything w :
  build_everything w force ->
  ∃ st1,
    Scan w (initial w rootdir) = (Val true, st1)
    ∧ affected_books st1 = ∅ ∧ included_by st1 = ∅
    ∧ book_bk st1 = ∅ ∧ parsed st1 = []
    ∧ ∀ w', start_cwd w' = start_cwd w -> listing w' = listing w ->
            git_diff_name_only w' = git_diff_name_only w ->
            only_book w' = only_book w ->
            Scan w' (initial w' rootdir) = (Val true, st1).
Proof.
  intros Hall. unfold scan.
  destruct (flag_build_everything w Hall) as (d & out & Hflag).
  rewrite bind_unfold, Hflag.
  match type of Hflag with _ = (_, ?s) => set (st0 := s) in * end.
  assert (∀ w', only_book w' = only_book w -> ∃ fl st',
    walk w rootdir book_exceptions file_exceptions ignore_dirs true rootdir
      (listing w) st0 = (Val fl, st')
    ∧ only_books_change st0 st'
    ∧ walk w' rootdir book_exceptions file_exceptions ignore_dirs true rootdir
        (listing w) st0 = (Val fl, st')) as Hwalk.
  { intros w' Hob. by apply walk_build_all. }
  destruct (Hwalk w eq_refl) as (fl & st1 & Hw & (_ & _ & Ha & Hi & Hk & Hp) & _).
  rewrite bind_unfold, Hw. exists st1. split_and!; [done..|].
  intros w' Hcwd Hlist Hgit Hob.
  assert (build_all_books_flag w' rootdir verbose force (initial w' rootdir)
          = (Val true, st0)) as Hflag'.
  { rewrite <-Hflag. unfold build_all_books_flag, check_modified_affects_all, initial.
    by rewrite Hcwd, Hgit, Hob. }
  rewrite bind_unfold, Hflag', bind_unfold, Hlist.
  destruct (Hwalk w' Hob) as (fl' & st1' & Hw1 & _ & ->).
  rewrite Hw in Hw1. by injection Hw1 as <- <-.
Qed.

Lemma find_after_scan_all w st st1 :
  Scan w st = (Val true, st1) ->
  ∃ line,
    find_affected_books w rootdir book_exceptions file_exceptions
      verbose force ignore_dirs st
    = (Val (BookList (books st1)), print line st1).
Proof.
  intros Hscan. unfold find_affected_books. rewrite bind_unfold, Hscan. simpl.
  rewrite !bind_unfold. simpl. destruct (truthy (only_book w)); by eexists.
Qed.

(** C2. When the force flag is set, or when the output of git lists
    [tools/test.py] or [doc/pom.xml], [find_affected_books] returns the
    list of the books the walk has discovered, which are all the books
    among the directories that [os.walk] yields (up to an excluded
    book); it does so without parsing a file and without recording an
    inclusion edge or a master file, and with the same result whatever
    the files contain and whatever the second call of git would have
    listed. *)
Theorem build_everything_returns_all_books w :
  build_everything w force ->
  (Run w).1
  = Val (BookList (discovered_books w rootdir book_exceptions file_exceptions
                     verbose force ignore_dirs))
  ∧ discovered_books w rootdir book_exceptions file_exceptions verbose force
      ignore_dirs
    = books_until_excluded w rootdir book_exceptions
        (os_walk ignore_dirs rootdir (listing w))
  ∧ parsed (Run w).2 = []
  ∧ included_by (Run w).2 = ∅
  ∧ book_bk (Run w).2 = ∅
  ∧ ∀ w', start_cwd w' = start_cwd w -> listing w' = listing w ->
          git_diff_name_only w' = git_diff_name_only w ->
          only_book w' = only_book w ->
          (Run w').1 = (Run w).1.
Proof.
  intros Hall.
  destruct (scan_build_everything w Hall) as (st1 & Hscan & Ha & Hi & Hk & Hp & Hany).
  destruct (find_after_scan_all w _ _ Hscan) as (line & Hrun).
  pose proof (proj2 (scan_books w rootdir book_exceptions file_exceptions verbose
                       force ignore_dirs) true) as Hbooks.
  unfold run_find_affected_books, discovered_books in *.
  rewrite Hrun. rewrite Hscan in *. simpl in *.
  split_and!; [done|by apply Hbooks|done..|].
  intros w' Hcwd Hlist Hgit Hob.
  destruct (find_after_scan_all w' _ _ (Hany w' Hcwd Hlist Hgit Hob)) as (line' & ->).
  done.
Qed.

End BuildEverything.

(** ** The claims about the closure and the value returned *)

Section ResultClaims.

Variable w : world.
Variables (rootdir : string) (book_exceptions file_exceptions : list string).
Variables (verbose force : bool) (ignore_dirs : list string).

Local Abbreviation Scan :=
  (scan w rootdir book_exceptions file_exceptions verbose force ignore_dirs).
Local Abbreviation Run :=
  (run_find_affected_books w rootdir book_exceptions file_exceptions
     verbose force ignore_dirs).
Local Abbreviation Books :=
  (discovered_books w rootdir book_exceptions file_exceptions
     verbose force ignore_dirs).

Lemma scan_false_only_book st st1 :
  Scan st = (Val false, st1) -> truthy (only_book w) = false.
Proof.
  unfold scan, build_all_books_flag. rewrite bind_unfold. destruct force.
  { simpl. rewrite bind_unfold. by destruct (walk _ _ _ _ _ _ _ _ _) as [[[]| |] ?]. }
  rewrite bind_unfold.
  destruct (check_modified_affects_all _ _ _ _) as [[special| |] st0]; [|done..].
  simpl. rewrite bind_unfold.
  destruct (walk _ _ _ _ _ _ _ _ _) as [[[]| |] ?]; try done;
    intros [= Hb _]; by apply orb_false_elim in Hb as [_ ?].
Qed.

Lemma first_special_false l st st' :
  first_special verbose l st = (Val false, st') ->
  ∀ f, f ∈ l -> f ∉ special_files.
Proof.
  induction l as [|g l IH]; simpl; [by intros _ f ?%elem_of_nil|].
  destruct (Py.mem g special_files) eqn:Hg.
  - rewrite bind_unfold. by destruct (when verbose _ st) as [[[]| |] ?].
  - intros Hrest f [->|Hf]%elem_of_cons; [|by eapply IH].
    unfold Py.mem in Hg. by apply bool_decide_eq_false in Hg.
Qed.

(** The scan returns [build_all_books = False] only when no "build
    everything" trigger is active: no force flag, no [only_book], and
    no special file in what git has listed. *)
Lemma scan_false_no_trigger st st1 :
  Scan st = (Val false, st1) ->
  force = false ∧ only_book w = []
  ∧ ∃ modified_files, git_diff_name_only w = inr modified_files
                      ∧ ∀ f, f ∈ modified_files -> f ∉ special_files.
Proof.
  intros Hscan. pose proof (scan_false_only_book _ _ Hscan) as Hob.
  unfold scan, build_all_books_flag in Hscan. rewrite bind_unfold in Hscan.
  destruct force.
  { simpl in Hscan. rewrite bind_unfold in Hscan.
    by destruct (walk _ _ _ _ _ _ _ _ _) as [[[]| |] ?]. }
  split; [done|]. split; [by destruct (only_book w)|].
  revert Hscan. rewrite bind_unfold.
  unfold check_modified_affects_all, chdir, git.
  rewrite bind_unfold. simpl. destruct (git_diff_name_only w) as [e|l]; [done|].
  rewrite !bind_unfold. simpl.
  destruct (first_special verbose l _) as [[special| |] st0] eqn:Hfs; [|done..].
  simpl. rewrite bind_unfold.
  destruct (walk _ _ _ _ _ _ _ _ _) as [[[]| |] ?]; try done;
    intros [= Hb _]; apply orb_false_elim in Hb as [-> _];
    exists l; split; [done| |done|]; by eapply first_special_false.
Qed.

(** What [close_modified] does, given what git prints. *)
Lemma close_modified_unfold st :
  close_modified w rootdir st =
  let st' := set_cwd (PosixPath.abspath (cwd st) rootdir) st in
  match git_diff_relative_ACMRT w with
  | inl e => (Exc (SystemExit 1), print ("git failed: " +:+ e) st')
  | inr _ =>
      match closure_of w rootdir st with
      | (Val _, c) => (Val c, set_affected_books (c_affected_books c) st')
      | (Exc e, c) => (Exc e, set_affected_books (c_affected_books c) st')
      | (OutOfFuel, c) => (OutOfFuel, st')
      end
  end.
Proof.
  unfold close_modified, closure_of, changed_files, get_modified_files, chdir, git.
  destruct (git_diff_relative_ACMRT w) as [e|l]; [done|].
  repeat (rewrite bind_unfold; simpl).
  by destruct (while_new_files _ _ _ _) as [[[]| |] c].
Qed.

(** The end of [find_affected_books] when not all books are built. *)
Lemma find_after_scan_closure st1 :
  Scan (initial w rootdir) = (Val false, st1) ->
  Run =
  match close_modified w rootdir st1 with
  | (Val c, st2) =>
      if bool_decide (affected_books st2 ≠ ∅)
      then (Val (BookSet (affected_books st2)), st2)
      else (Val (BookList (books st2)),
            print "No books are affected by modified files. Building all books." st2)
  | (Exc e, st2) => (Exc e, st2)
  | (OutOfFuel, st2) => (OutOfFuel, st2)
  end.
Proof.
  intros Hscan. pose proof (scan_false_only_book _ _ Hscan) as Hob.
  unfold run_find_affected_books, find_affected_books.
  rewrite bind_unfold, Hscan. simpl. rewrite !bind_unfold.
  destruct (close_modified w rootdir st1) as [[c| |] st2]; simpl; [|done..].
  repeat (rewrite bind_unfold; simpl). rewrite Hob.
  by destruct (bool_decide _).
Qed.

Lemma close_modified_books st :
  books (close_modified w rootdir st).2 = books st.
Proof.
  rewrite close_modified_unfold. simpl.
  destruct (git_diff_relative_ACMRT w); [done|].
  by destruct (closure_of w rootdir st) as [[[]| |] c].
Qed.

Lemma scan_owned_by_books :
  owned_by_books rootdir (Scan (initial w rootdir)).2.
Proof.
  assert (∀ st, fresh_locals rootdir st -> owned_by_books rootdir st) as Hfresh.
  { intros st (Hb & Hr & Ha & _ & Hk & _). unfold owned_by_books.
    rewrite Hr, Ha, Hk. split_and!; [by right|set_solver|].
    intros k b Hkb. by rewrite lookup_empty in Hkb. }
  destruct (scan_inv w rootdir book_exceptions file_exceptions verbose force
              ignore_dirs) as [(b & st0 & _ & H0 & -> & _)|[H0 _]]; [|by apply Hfresh].
  by apply walk_owned_by_books, Hfresh.
Qed.

(** Where the elements of the value returned come from.  Every one
    is a discovered book or [rootdir], which [book_root] holds until the
    walk meets the first book; and a discovered book is a directory that
    [os.walk] yields, that holds a [pom.xml] and is not a blind spot.
    So [rootdir] is all that can be returned without being a book. *)
Theorem result_within_books_or_rootdir :
  (∀ r b, Run.1 = Val r -> book_in b r -> b ∈ Books ∨ b = rootdir)
  ∧ (∀ b, b ∈ Books ->
          ∃ files, (b, files) ∈ os_walk ignore_dirs rootdir (listing w)
                   ∧ Py.mem "pom.xml" files = true
                   ∧ blind_spot rootdir b = false).
Proof.
  split.
  - intros r b Hrun Hb. unfold discovered_books.
    pose proof scan_owned_by_books as (_ & Hown_a & Hown_k).
    destruct (Scan (initial w rootdir)) as [[[|]| |] st1] eqn:Hscan; simpl in *.
    + destruct (find_after_scan_all rootdir book_exceptions file_exceptions verbose
                  force ignore_dirs w _ _ Hscan) as (line & Hfind).
      unfold run_find_affected_books in Hrun. rewrite Hfind in Hrun.
      injection Hrun as <-. by left.
    + rewrite (find_after_scan_closure _ Hscan) in Hrun.
      pose proof (close_modified_books st1) as Hbooks.
      rewrite close_modified_unfold in Hrun, Hbooks. simpl in Hrun, Hbooks.
      destruct (git_diff_relative_ACMRT w) as [e|l]; [done|].
      pose proof (while_new_files_advances (included_by st1) (book_bk st1)
                    (closure_fuel (included_by st1))
                    (start_closure (changed_files w rootdir st1) (affected_books st1)))
        as Hadv.
      fold (closure_of w rootdir st1) in Hadv.
      destruct (closure_of w rootdir st1) as [[[]| |] c]; simpl in *; [|done..].
      destruct (bool_decide _); injection Hrun as <-; simpl in Hb; [|by left].
      destruct (adv_owner _ _ _ _ Hadv b Hb) as [Ha|(m & Hm)]; eauto.
    + unfold run_find_affected_books, find_affected_books in Hrun.
      by rewrite bind_unfold, Hscan in Hrun.
    + unfold run_find_affected_books, find_affected_books in Hrun.
      by rewrite bind_unfold, Hscan in Hrun.
  - intros b Hb.
    destruct (scan_books w rootdir book_exceptions file_exceptions verbose force
                ignore_dirs) as [Hpre _].
    destruct Hpre as [rest Hrest].
    destruct (books_until_excluded_elem w rootdir book_exceptions
                (os_walk ignore_dirs rootdir (listing w)) b)
      as (files & Hin & Hrec).
    { rewrite Hrest. apply elem_of_app. by left. }
    exists files. unfold records_book in Hrec.
    apply andb_prop in Hrec as [[Hblind Hpom]%andb_prop _].
    split_and!; [done..|]. by destruct (blind_spot rootdir b).
Qed.

(** C3.  When no "build everything" trigger is active (the scan has
    returned [build_all_books = False], see [scan_false_no_trigger])
    and the closure ends with an empty [affected_books],
    [find_affected_books] says so and returns the list of the books
    discovered, which are all the books among the directories that
    [os.walk] yields (up to an excluded book). *)
Theorem empty_set_falls_back_to_all_books st1 c st2 :
  Scan (initial w rootdir) = (Val false, st1) ->
  close_modified w rootdir st1 = (Val c, st2) ->
  affected_books st2 = ∅ ->
  Run = (Val (BookList Books),
         print "No books are affected by modified files. Building all books." st2)
  ∧ Books = books_until_excluded w rootdir book_exceptions
              (os_walk ignore_dirs rootdir (listing w)).
Proof.
  intros Hscan Hclose Hempty. split.
  - rewrite (find_after_scan_closure _ Hscan).
    pose proof (close_modified_books st1) as Hbooks.
    rewrite Hclose in *. simpl in Hbooks.
    rewrite bool_decide_eq_false_2 by (by intros []).
    unfold discovered_books. by rewrite Hscan, Hbooks.
  - apply (proj2 (scan_books w rootdir book_exceptions file_exceptions verbose
                    force ignore_dirs) false).
    by rewrite Hscan.
Qed.

(** C1, as the code has it.  When no "build everything" trigger is
    active (the scan has returned [build_all_books = False]) and the
    call returns a value: if a changed file [f] starts a
    chain of inclusion edges recorded in [included_by], none of whose
    files before the last has the name of a master file, and the chain
    ends at a master file [m] that [book_bk] maps to [b], then [b]
    is in the value returned. *)
Theorem closure_soundness st1 r f m b :
  Scan (initial w rootdir) = (Val false, st1) ->
  Run.1 = Val r ->
  f ∈ changed_files w rootdir st1 ->
  chain (included_by st1) f m ->
  is_book_master (PosixPath.basename m) = true ->
  book_bk st1 !! m = Some b ->
  book_in b r.
Proof.
  intros Hscan Hrun Hf Hchain Hm Hb.
  rewrite (find_after_scan_closure _ Hscan) in Hrun.
  rewrite close_modified_unfold in Hrun. simpl in Hrun.
  destruct (git_diff_relative_ACMRT w) as [e|l] eqn:Hgit; [done|].
  destruct (closure_of w rootdir st1) as [[[]| |] c] eqn:Hc; simpl in *; [|done..].
  pose proof (closure_sound _ _ _ _ _ _ _ _ _ Hc Hf Hchain Hm Hb) as Hin.
  destruct (bool_decide_reflect (c_affected_books c ≠ ∅)) as [_|Hempty].
  - by injection Hrun as <-.
  - exfalso. apply Hempty. intros Heq. rewrite Heq in Hin. set_solver.
Qed.

(** *** Termination *)

Lemma close_modified_total : total (close_modified w rootdir).
Proof.
  intros st. rewrite close_modified_unfold. simpl.
  destruct (git_diff_relative_ACMRT w); [done|].
  pose proof (closure_fuel_enough (included_by st) (book_bk st)
                (start_closure (changed_files w rootdir st) (affected_books st)))
    as Hfuel.
  fold (closure_of w rootdir st) in Hfuel.
  by destruct (closure_of w rootdir st) as [[[]| |] c].
Qed.

Lemma find_affected_books_total :
  total (find_affected_books w rootdir book_exceptions file_exceptions
           verbose force ignore_dirs).
Proof.
  unfold find_affected_books, scan, build_all_books_flag,
    check_modified_affects_all, chdir, git.
  assert (∀ l, total (first_special verbose l)) as Hfs.
  { induction l as [|f l IH]; simpl; repeat total_step; done. }
  repeat total_step; try apply walk_total; try apply close_modified_total; done.
Qed.

(** Termination of the closure, and how often a file is taken.  For
    every inclusion graph [G], cyclic or not, and every map [B] of
    master files: the closure loop ends within [closure_fuel G]
    rounds, with a result that more rounds do not change; a file is
    taken from the frontier once at most, unless the list of changed
    files that the loop starts from names it several times itself, and
    then as often at most; so the files taken are pairwise different
    when the changed files are; and [find_affected_books] as a whole
    never runs out of rounds. *)
Theorem closure_terminates_and_takes_each_file_once
    (G : gmap string (gset string)) (B : gmap string string)
    (modified_files : list string) (affected : gset string) :
  (while_new_files G B (closure_fuel G) (start_closure modified_files affected)).1
  ≠ OutOfFuel
  ∧ (∀ fuel, (closure_fuel G <= fuel)%nat ->
       while_new_files G B fuel (start_closure modified_files affected)
       = while_new_files G B (closure_fuel G) (start_closure modified_files affected))
  ∧ (∀ f,
       (times f (dequeued (while_new_files G B (closure_fuel G)
                             (start_closure modified_files affected)).2)
        <= Nat.max 1 (times f modified_files))%nat)
  ∧ (NoDup modified_files ->
     NoDup (dequeued (while_new_files G B (closure_fuel G)
                        (start_closure modified_files affected)).2))
  ∧ Run.1 ≠ OutOfFuel.
Proof.
  split_and!.
  - apply closure_fuel_enough.
  - intros fuel Hle. apply while_new_files_more_fuel; [|done].
    apply closure_fuel_enough.
  - intros f. apply dequeued_at_most_once.
  - apply dequeued_NoDup.
  - apply find_affected_books_total.
Qed.

End ResultClaims.

(** ** The scenarios of the design document, and where the claims fail *)

Module ScenarioFacts.

Import Scenario.

Ltac compute_eq := vm_compute; reflexivity.
Ltac decide_by_computation := apply (bool_decide_unpack _); vm_compute; exact I.

Example basename_of_path : PosixPath.basename "/r/doc/a/bk-a.xml" = "bk-a.xml".
Proof. reflexivity. Qed.

Example abspath_of_href :
  PosixPath.abspath "/r/doc" (PosixPath.join "/r/doc/b" "../a/./bk-a.xml")
  = "/r/doc/a/bk-a.xml".
Proof. reflexivity. Qed.

Example abspath_of_relative_path :
  PosixPath.abspath "/r/doc" "a//ch1.xml" = "/r/doc/a/ch1.xml".
Proof. reflexivity. Qed.

Example endswith_doc :
  Py.endswith "/r/mydoc" "doc" = true ∧ Py.endswith "oc" "doc" = false.
Proof. split; reflexivity. Qed.

Example master_file_names :
  is_book_master "bk-a.xml" = true
  ∧ is_book_master "st-training-guides.xml" = true
  ∧ is_book_master "openstack-glossary.xml" = true
  ∧ is_book_master "bk-a.txt" = false
  ∧ is_book_master "ch1.xml" = false.
Proof. repeat split; reflexivity. Qed.

Example scenario_1 :
  (run chapter_changed [] []).1 = Val (BookSet {[ "/r/doc/a" ]}).
Proof. compute_eq. Qed.

Example scenario_2 :
  (run script_changed [] []).1 = Val (BookList ["/r/doc/a"; "/r/doc/b"]).
Proof. compute_eq. Qed.

Example scenario_3 :
  (run orphan_changed [] []).1 = Val (BookList ["/r/doc/a"; "/r/doc/b"])
  ∧ stdout (run orphan_changed [] []).2
    = ["No books are affected by modified files. Building all books."].
Proof. split; compute_eq. Qed.

Example scenario_4_scan :
  (run cycle_changed [] []).1 = Val (BookSet {[ "/r/doc/a" ]})
  ∧ included_by (run cycle_changed [] []).2 = cyclic_graph
  ∧ book_bk (run cycle_changed [] []).2 = cyclic_masters.
Proof. split_and!; compute_eq. Qed.

Example scenario_4 :
  let r := while_new_files cyclic_graph cyclic_masters (closure_fuel cyclic_graph)
             (start_closure ["/r/doc/a/ch0.xml"] ∅) in
  r.1 = Val tt
  ∧ c_affected_books r.2 = {[ "/r/doc/a" ]}
  ∧ dequeued r.2 = ["/r/doc/a/ch0.xml"; "/r/doc/a/ch1.xml"; "/r/doc/a/bk-a.xml"].
Proof. split_and!; compute_eq. Qed.

(** *** C1 *)

(** C1 as stated fails: the changed chapter starts a chain of
    inclusion edges that ends at the master file of book [b], through
    the master file of book [a], and [b] is not returned. *)
Lemma chain_through_master_is_cut :
  let st1 := (scan master_includes_master rootdir [] [] false false []
                (initial master_includes_master rootdir)).2 in
  (scan master_includes_master rootdir [] [] false false []
     (initial master_includes_master rootdir)).1 = Val false
  ∧ "/r/doc/a/ch1.xml" ∈ changed_files master_includes_master rootdir st1
  ∧ any_chain (included_by st1) "/r/doc/a/ch1.xml" "/r/doc/b/bk-b.xml"
  ∧ is_book_master (PosixPath.basename "/r/doc/b/bk-b.xml") = true
  ∧ book_bk st1 !! "/r/doc/b/bk-b.xml" = Some "/r/doc/b"
  ∧ (run master_includes_master [] []).1 = Val (BookSet {[ "/r/doc/a" ]})
  ∧ ¬ book_in "/r/doc/b" (BookSet {[ "/r/doc/a" ]}).
Proof.
  split_and!.
  - compute_eq.
  - decide_by_computation.
  - eapply (any_chain_edge _ _ "/r/doc/a/bk-a.xml"); [compute_eq..|].
    eapply (any_chain_edge _ _ "/r/doc/b/bk-b.xml"); [compute_eq..|].
    apply any_chain_end.
  - reflexivity.
  - compute_eq.
  - compute_eq.
  - simpl. decide_by_computation.
Qed.

(** C1 as amended, in scenario 1. *)
Lemma closure_soundness_witness :
  book_in "/r/doc/a" (BookSet {[ "/r/doc/a" ]}).
Proof.
  apply (closure_soundness chapter_changed rootdir [] [] false false []
           (scan chapter_changed rootdir [] [] false false []
              (initial chapter_changed rootdir)).2
           (BookSet {[ "/r/doc/a" ]})
           "/r/doc/a/ch1.xml" "/r/doc/a/bk-a.xml" "/r/doc/a").
  - compute_eq.
  - compute_eq.
  - decide_by_computation.
  - eapply (chain_edge _ _ "/r/doc/a/bk-a.xml"); [reflexivity|compute_eq..|].
    apply chain_end.
  - reflexivity.
  - compute_eq.
Defined.

(** *** C2 *)

(** C2 in scenario 2. *)
Lemma build_everything_witness :
  (run script_changed [] []).1
  = Val (BookList (discovered_books script_changed rootdir [] [] false false []))
  ∧ discovered_books script_changed rootdir [] [] false false []
    = ["/r/doc/a"; "/r/doc/b"].
Proof.
  assert (build_everything script_changed false) as Htrigger.
  { right. exists ["tools/test.py"], "tools/test.py".
    split_and!; [reflexivity|decide_by_computation..]. }
  destruct (build_everything_returns_all_books rootdir [] [] false false []
              script_changed Htrigger) as (Hrun & Hbooks & _).
  split; [exact Hrun|]. rewrite Hbooks. reflexivity.
Defined.

(** *** C3 *)

(** C3 in scenario 3. *)
Lemma empty_set_fallback_witness :
  (run orphan_changed [] []).1
  = Val (BookList (discovered_books orphan_changed rootdir [] [] false false [])).
Proof.
  edestruct (empty_set_falls_back_to_all_books orphan_changed rootdir [] [] false
               false []) as [Hrun _].
  - compute_eq.
  - compute_eq.
  - compute_eq.
  - unfold run. rewrite Hrun. reflexivity.
Defined.

(** *** C4 *)

(** C4 fails on the code: the master file of a book in an ignored
    directory has changed, the walk has not recorded it in [book_bk],
    and the closure loop raises [KeyError] at [book_bk[f]]. *)
Lemma changed_master_of_ignored_book_raises :
  (run ignored_master_changed [] ["training-guides"]).1
  = Exc (KeyError "/r/doc/training-guides/bk-training.xml").
Proof. compute_eq. Qed.

(** *** C5 *)

(** C5 as stated fails twice: the directory [b], listed after
    the excluded book [a], and the directory [target] are among the
    directories the claim says are visited, and are not visited. *)
Lemma sibling_of_excluded_book_and_target_not_visited :
  visited (run three_dirs ["a"] []).2 = ["/r/doc"; "/r/doc/a"]
  ∧ visited (run three_dirs [] []).2 = ["/r/doc"; "/r/doc/a"; "/r/doc/b"]
  ∧ "/r/doc/b" ∈ claimed_visits [] ["a"] rootdir (listing three_dirs)
  ∧ ("/r/doc/b" ∉ visited (run three_dirs ["a"] []).2)
  ∧ "/r/doc/target" ∈ claimed_visits [] [] rootdir (listing three_dirs)
  ∧ ("/r/doc/target" ∉ visited (run three_dirs [] []).2).
Proof.
  split_and!; [compute_eq|compute_eq|decide_by_computation..].
Qed.

(** C5 as amended, where no book is excluded. *)
Lemma walk_visits_witness :
  visited (walk three_dirs rootdir [] [] [] true rootdir (listing three_dirs)
             (initial three_dirs rootdir)).2
  = ["/r/doc"; "/r/doc/a"; "/r/doc/b"].
Proof.
  pose proof (walk_visits_unpruned_directories three_dirs rootdir [] [] false true [])
    as (_ & _ & Hall & _).
  rewrite (Hall true rootdir (listing three_dirs) (initial three_dirs rootdir) Continue).
  - reflexivity.
  - intros d _. reflexivity.
  - compute_eq.
Defined.

(** *** C6 *)

(** C6 as stated fails: the master file of the guide is parsed
    and its inclusion edge recorded, and the guide is returned as
    affected although no changed file lies under its directory. *)
Lemma ha_guide_is_scanned_and_reached_by_inclusion :
  "/r/doc/high-availability-guide/bk-ha-guide.xml" ∈ parsed (run ha_guide [] []).2
  ∧ included_by (run ha_guide [] []).2 !! "/r/doc/common/section_x.xml"
    = Some {[ "/r/doc/high-availability-guide/bk-ha-guide.xml" ]}
  ∧ git_diff_name_only ha_guide = inr ["doc/common/section_x.xml"]
  ∧ ¬ ha_touched ["doc/common/section_x.xml"]
  ∧ changed_files ha_guide rootdir
      (scan ha_guide rootdir [] [] false false [] (initial ha_guide rootdir)).2
    = ["/r/doc/common/section_x.xml"]
  ∧ Py.startswith "/r/doc/common/section_x.xml" "/r/doc/high-availability-guide/"
    = false
  ∧ (run ha_guide [] []).1 = Val (BookSet {[ "/r/doc/high-availability-guide" ]}).
Proof.
  split_and!; try compute_eq.
  - decide_by_computation.
  - intros (f & ->%list_elem_of_singleton & Hf). discriminate Hf.
Qed.

(** C6 as amended, where a file of the guide has changed. *)
Lemma ha_guide_witness :
  affected_books
    (visit ha_guide_touched_world rootdir [] [] false "/r/doc/high-availability-guide"
       ["pom.xml"; "bk-ha-guide.xml"] (initial ha_guide_touched_world rootdir)).2
  = ∅ ∪ {[ book_root
             (visit ha_guide_touched_world rootdir [] [] false
                "/r/doc/high-availability-guide" ["pom.xml"; "bk-ha-guide.xml"]
                (initial ha_guide_touched_world rootdir)).2 ]}.
Proof.
  assert (ha_touched ["doc/high-availability-guide/ha.txt"]) as Htouched.
  { exists "doc/high-availability-guide/ha.txt". split; [left|reflexivity]. }
  exact (proj1 (ha_guide_is_checked_and_scanned ha_guide_touched_world rootdir [] []
                  "/r/doc/high-availability-guide" ["pom.xml"; "bk-ha-guide.xml"]
                  (initial ha_guide_touched_world rootdir)
                  ["doc/high-availability-guide/ha.txt"]
                  eq_refl eq_refl eq_refl eq_refl) Htouched).
Defined.

(** *** C7 *)

(** C7 fails on the code: the glossary lies in a directory without
    [pom.xml] that the walk meets before the first book, so its master
    file is recorded for [book_root], which is still [rootdir]; when
    the glossary changes, the value returned is [{rootdir}], and
    [rootdir] is not a discovered book (the walk itself keeps it out of
    [books]). *)
Lemma rootdir_is_returned_as_a_book :
  (run glossary_changed [] []).1 = Val (BookSet {[ "/r/doc" ]})
  ∧ book_in "/r/doc" (BookSet {[ "/r/doc" ]})
  ∧ discovered_books glossary_changed rootdir [] [] false false []
    = ["/r/doc/user-guide"]
  ∧ ("/r/doc" ∉ discovered_books glossary_changed rootdir [] [] false false []).
Proof.
  split_and!; [compute_eq|simpl; set_solver|compute_eq|decide_by_computation].
Qed.

(** The books of scenario 1 are discovered books. *)
Lemma result_within_books_witness :
  "/r/doc/a" ∈ discovered_books chapter_changed rootdir [] [] false false []
  ∨ "/r/doc/a" = rootdir.
Proof.
  apply (proj1 (result_within_books_or_rootdir chapter_changed rootdir [] [] false
                  false [])
           (BookSet {[ "/r/doc/a" ]}) "/r/doc/a").
  - compute_eq.
  - simpl. set_solver.
Defined.

(** *** C8 *)

(** C8 fails on the code: the names of two changed files hold a
    blank, the output of git is cut at white space, and the token
    [a/my] is in the list of changed files twice; the loop starts from
    that list as it is, and takes the file [/r/doc/a/my] from the
    frontier twice. *)
Lemma repeated_token_is_taken_twice :
  let st1 := (scan names_with_blanks rootdir [] [] false false []
                (initial names_with_blanks rootdir)).2 in
  let taken := dequeued (closure_of names_with_blanks rootdir st1).2 in
  (scan names_with_blanks rootdir [] [] false false []
     (initial names_with_blanks rootdir)).1 = Val false
  ∧ changed_files names_with_blanks rootdir st1
    = ["/r/doc/a/my"; "/r/doc/chapter.xml"; "/r/doc/a/my"; "/r/doc/section.xml"]
  ∧ (closure_of names_with_blanks rootdir st1).1 = Val tt
  ∧ taken
    = ["/r/doc/a/my"; "/r/doc/chapter.xml"; "/r/doc/a/my"; "/r/doc/section.xml"]
  ∧ times "/r/doc/a/my" taken = 2
  ∧ ¬ NoDup taken
  ∧ (run names_with_blanks [] []).1 = Val (BookList ["/r/doc/a"]).
Proof.
  split_and!; try compute_eq.
  intros Hnodup. revert Hnodup. apply (bool_decide_unpack _). vm_compute. exact I.
Qed.

(** The loop in scenario 4, where a file includes itself. *)
Lemma closure_terminates_witness :
  NoDup (dequeued (while_new_files cyclic_graph cyclic_masters
                     (closure_fuel cyclic_graph)
                     (start_closure ["/r/doc/a/ch0.xml"] ∅)).2).
Proof.
  assert (NoDup ["/r/doc/a/ch0.xml"]) as Hnodup by decide_by_computation.
  exact (proj1 (proj2 (proj2 (proj2
           (closure_terminates_and_takes_each_file_once chapter_changed rootdir
              [] [] false false [] cyclic_graph cyclic_masters
              ["/r/doc/a/ch0.xml"] ∅)))) Hnodup).
Defined.

(** *** C9 *)

(** C9 where the chapter of scenario 1 is not XML. *)
Lemma parse_failure_witness :
  (run chapter_broken [] []).1
  = (run (with_empty_document "/r/doc/a/ch1.xml" chapter_broken) [] []).1.
Proof.
  assert (etree_parse chapter_broken "/r/doc/a/ch1.xml"
          = XMLSyntaxError "Start tag expected") as Hbroken by reflexivity.
  exact (proj2 (proj2 (proj2
           (parse_failure_is_not_fatal chapter_broken rootdir [] [] false false []
              "/r/doc/a/ch1.xml" "Start tag expected" Hbroken)))).
Defined.

Example parse_failure_warning :
  stdout (run chapter_broken [] []).2
  = ["  Warning: file /r/doc/a/ch1.xml is invalid XML: Start tag expected"].
Proof. compute_eq. Qed.

(** *** C10 *)

(** C10 at [rootdir], for a listing with a master file in it. *)
Lemma blind_spot_witness :
  visit chapter_changed rootdir [] [] false rootdir ["pom.xml"; "bk-top.xml"]
    (initial chapter_changed rootdir)
  = (Val Continue, note_visited rootdir (initial chapter_changed rootdir)).
Proof.
  exact (proj1 (blind_spots_are_left_alone chapter_changed rootdir [] [] false false [])
           false rootdir ["pom.xml"; "bk-top.xml"] (initial chapter_changed rootdir)
           eq_refl).
Defined.

End ScenarioFacts.
